(** * redis-ratelimiter: a shallow embedding of [redis_limiter.go]

    The package wraps [redis_rate] behind a blocking [Take] and composes
    several limiters into one.  Everything the package does not implement
    itself (the wall clock, the quota store behind [redis_rate.Limiter.Allow],
    timers and context cancellation, the slice growth policy of the Go
    runtime, and implementations of the [Limiter] interface written outside
    the package) is collected in the class [Runtime]; the package code is
    written once, over any runtime, in a small state-and-panic monad. *)

From Stdlib Require Import ZArith List String Bool Lia.
From stdpp Require Import base list relations.
Import ListNotations.

Set Implicit Arguments.
Local Open Scope Z_scope.

(** ** Values of the standard library and of redis_rate *)

(** [time.Time], read as nanoseconds on the wall clock, and
    [time.Duration], a signed count of nanoseconds. *)
Definition time_Time := Z.
Definition time_Duration := Z.

(** [time.Second], the default period in [New]. *)
Definition time_Second : time_Duration := 1000000000.

(** The zero value [time.Time{}] that [var lastTime time.Time] starts with. *)
Definition zeroTime : time_Time := 0.

(** A non-nil [error].  [ErrIntervalServer] is the package's sentinel;
    [errorOf] stands for any other error value, named by its message.
    A Go [error] that may be nil is an [option error]. *)
Inductive error : Type :=
| ErrIntervalServer
| errorOf (msg : string).

(** [context.Context].  [context.Background()] is never cancelled and its
    [Done()] is the nil channel; a cancellable context is named by its
    done-channel; the interface value may also be nil. *)
Inductive context_Context : Type :=
| nilContext
| Background
| cancelCtx (done : nat).

(** [redis.UniversalClient] is an opaque handle, and [redis_rate.Limiter]
    only keeps it. *)
Definition redis_UniversalClient := nat.

Record redis_rate_Limiter : Type := NewLimiter { rdb : redis_UniversalClient }.

(** [redis_rate.Limit] and [redis_rate.Result]. *)
Record Limit : Type := mkLimit {
  Rate : Z;
  Burst : Z;
  Period : time_Duration
}.

Record Result : Type := mkResult {
  ResultLimit : Limit;
  Allowed : Z;
  Remaining : Z;
  RetryAfter : time_Duration;
  ResetAfter : time_Duration
}.

(** Which case of the [select] in [Take] was taken. *)
Inductive Wake : Type :=
| TimerFired
| CtxDone.

(** ** The package's data *)

Record config : Type := mkConfig {
  cfg_per : time_Duration;
  cfg_ctx : context_Context
}.

(** [Option], a function on a pointer to [config].  [config] is unexported, so the only
    option values a caller can build are the closures returned by [Per] and
    [WithContext], and the nil function. *)
Inductive Option : Type :=
| Per (d : time_Duration)
| WithContext (c : context_Context)
| nilOption.

Record redisLimiter : Type := mkRedisLimiter {
  limiter : redis_rate_Limiter;
  key : string;
  limit : Limit;
  ctx : context_Context
}.

(** A value of the interface [Limiter]: nil, a [*redisLimiter] (never
    mutated after [New], hence kept by value), a [*compositeLimiter] (a
    pointer into the heap below), or an implementation foreign to the
    package, known by a name. *)
Inductive Limiter : Type :=
| nilLimiter
| redisL (l : redisLimiter)
| compositeL (p : nat)
| foreignL (id : nat).

(** A Go slice header over a backing array of the heap. *)
Record slice : Type := mkSlice {
  arr : nat;
  off : nat;
  len : nat;
  cap : nat
}.

(** The nil slice. *)
Definition nilSlice : slice := mkSlice 0 0 0 0.

(** [compositeLimiter]; the [sync.RWMutex] has no content in a sequential
    execution and is left out. *)
Record compositeLimiter : Type := mkComposite {
  limiters : slice
}.

Record Heap : Type := mkHeap {
  composites : list compositeLimiter;
  arrays : list (list Limiter)
}.

(** ** Outcomes and the runtime *)

(** How a call ends: it returns, it panics, or it has not returned within
    the number of steps it was given. *)
Inductive Outcome (A : Type) : Type :=
| Returned (a : A)
| Panicked
| Blocked.

Arguments Panicked {A}.
Arguments Blocked {A}.

(** What the package calls but does not define. *)
Class Runtime (Env : Type) : Type := {
  (** [time.Now()] *)
  rt_Now : Env -> time_Time * Env;
  (** [Allow(ctx, key, limit)] of [redis_rate.Limiter] *)
  rt_Allow : redis_rate_Limiter -> context_Context -> string -> Limit ->
             Env -> (option Result * option error) * Env;
  (** a timer of [d] running to its end, nothing else being able to fire *)
  rt_After : time_Duration -> Env -> Env;
  (** a timer of [d] raced against the done-channel [c] *)
  rt_Race : time_Duration -> nat -> Env -> Wake * Env;
  (** the capacity the runtime picks when [append] must reallocate *)
  rt_growslice : nat -> nat;
  (** [Take] of a limiter implemented outside the package *)
  rt_foreignTake : nat -> Env * Heap ->
                   Outcome (time_Time * option error) * (Env * Heap)
}.

(** What the program did to the outside, in order. *)
Inductive Event : Type :=
| EvNow (t : time_Time)
| EvAllow (k : string) (lim : Limit)
| EvAfter (d : time_Duration)
| EvRace (d : time_Duration) (c : nat)
| EvForeign (id : nat).

Record State (Env : Type) : Type := mkState {
  env : Env;
  heap : Heap;
  trace : list Event
}.

(** ** New *)

(** Calling an [Option] on the configuration; calling the nil function
    panics. *)
Definition Option_call (o : Option) (c : config) : Outcome config :=
  match o with
  | Per d => Returned (mkConfig d (cfg_ctx c))
  | WithContext x => Returned (mkConfig (cfg_per c) x)
  | nilOption => Panicked
  end.

(** [for _, opt := range opts { opt(cfg) }] *)
Fixpoint apply_opts (opts : list Option) (cfg : config) : Outcome config :=
  match opts with
  | [] => Returned cfg
  | opt :: rest =>
      match Option_call opt cfg with
      | Returned cfg' => apply_opts rest cfg'
      | Panicked => Panicked
      | Blocked => Blocked
      end
  end.

Definition New (r : redis_UniversalClient) (k : string) (rate : Z)
    (opts : list Option) : Outcome redisLimiter :=
  let cfg := mkConfig time_Second Background in
  match apply_opts opts cfg with
  | Returned cfg =>
      Returned (mkRedisLimiter (NewLimiter r) k
                  (mkLimit rate rate (cfg_per cfg)) (cfg_ctx cfg))
  | Panicked => Panicked
  | Blocked => Blocked
  end.

(** ** The monad of the package code *)

(** A computation reads and writes the state and ends in an [Outcome]; a
    panic or a block stops everything after it. *)
Definition M (Env A : Type) : Type := State Env -> Outcome A * State Env.

Definition ret {Env A} (a : A) : M Env A := fun s => (Returned a, s).

Definition bind {Env A B} (m : M Env A) (k : A -> M Env B) : M Env B :=
  fun s =>
    match m s with
    | (Returned a, s') => k a s'
    | (Panicked, s') => (Panicked, s')
    | (Blocked, s') => (Blocked, s')
    end.

Definition panic {Env A} : M Env A := fun s => (Panicked, s).
Definition blocked {Env A} : M Env A := fun s => (Blocked, s).

Notation "'let*' x := m 'in' k" := (bind m (fun x => k))
  (at level 10, x pattern, m at level 100, k at level 200).

(** Reading through a pointer: nil panics. *)
Definition deref {Env A} (p : option A) : M Env A :=
  match p with
  | Some a => ret a
  | None => panic
  end.

Definition is_nil {A} (x : option A) : bool :=
  match x with
  | None => true
  | Some _ => false
  end.

(** ** The package code *)

Section Package.

Context {Env : Type} {RT : Runtime Env}.

Definition emit (ev : Event) (s : State Env) (e : Env) : State Env :=
  mkState e (heap s) (trace s ++ [ev]).

(** [time.Now()] *)
Definition time_Now : M Env time_Time :=
  fun s => let '(t, e) := rt_Now (env s) in (Returned t, emit (EvNow t) s e).

(** [l.limiter.Allow(l.ctx, l.key, l.limit)] *)
Definition Allow (rl : redis_rate_Limiter) (c : context_Context) (k : string)
    (lim : Limit) : M Env (option Result * option error) :=
  fun s => let '(r, e) := rt_Allow rl c k lim (env s) in
           (Returned r, emit (EvAllow k lim) s e).

(** [ctx.Done()]: a method call on a nil interface panics, the background
    context has the nil channel. *)
Definition Done (c : context_Context) : M Env (option nat) :=
  match c with
  | nilContext => panic
  | Background => ret None
  | cancelCtx d => ret (Some d)
  end.

(** [select { case <-time.After(d): ... case <-done: ... }]: a nil channel
    is never ready, so only the timer can fire. *)
Definition select_After_Done (d : time_Duration) (done : option nat) : M Env Wake :=
  fun s =>
    match done with
    | None => (Returned TimerFired, emit (EvAfter d) s (rt_After d (env s)))
    | Some c => let '(w, e) := rt_Race d c (env s) in
                (Returned w, emit (EvRace d c) s e)
    end.

(** [func (l *redisLimiter) Take() (time.Time, error)].  [fuel] bounds the
    number of turns of the [for] loop. *)
Fixpoint redisLimiter_Take (fuel : nat) (l : redisLimiter)
    : M Env (time_Time * option error) :=
  match fuel with
  | O => blocked
  | S fuel =>
      let* now := time_Now in
      let* (res, err) := Allow (limiter l) (ctx l) (key l) (limit l) in
      (* err == nil && res.Allowed > 0 *)
      let* ok := (if is_nil err
                  then let* r := deref res in ret (0 <? Allowed r)
                  else ret false) in
      if ok then ret (now, None)
      else if negb (is_nil err) then
        let* t := time_Now in ret (t, err)
      else
        match res with
        | None => let* t := time_Now in ret (t, Some ErrIntervalServer)
        | Some r =>
            if 0 <? RetryAfter r then
              let* done := Done (ctx l) in
              let* w := select_After_Done (RetryAfter r) done in
              match w with
              | TimerFired => redisLimiter_Take fuel l
              | CtxDone => let* t := time_Now in ret (t, None)
              end
            else
              (* Should not reach here, but fail open just in case *)
              ret (now, None)
        end
  end.

(** *** Slices and the heap *)

Definition array_at (h : Heap) (a : nat) : list Limiter :=
  default [] (arrays h !! a).

(** The elements a slice shows: [len] cells of its array from [off] on. *)
Definition slice_elems (h : Heap) (sl : slice) : list Limiter :=
  take (len sl) (drop (off sl) (array_at h (arr sl))).

(** [append(sl, x)]: with room left the cell behind the last element is
    written in place; otherwise the elements move to a new array, whose
    capacity the runtime picks. *)
Definition go_append (sl : slice) (x : Limiter) : M Env slice :=
  fun s =>
    let h := heap s in
    if (len sl <? cap sl)%nat then
      let a := <[(off sl + len sl)%nat := x]> (array_at h (arr sl)) in
      (Returned (mkSlice (arr sl) (off sl) (S (len sl)) (cap sl)),
       mkState (env s) (mkHeap (composites h) (<[arr sl := a]> (arrays h)))
               (trace s))
    else
      let newcap := Nat.max (S (len sl)) (rt_growslice (cap sl)) in
      let a := slice_elems h sl ++
               x :: replicate (newcap - S (len sl)) nilLimiter in
      (Returned (mkSlice (length (arrays h)) 0 (S (len sl)) newcap),
       mkState (env s) (mkHeap (composites h) (arrays h ++ [a])) (trace s)).

(** The slice a variadic call builds from its arguments: nil for none,
    otherwise a new array filled to its capacity. *)
Definition variadic (xs : list Limiter) : M Env slice :=
  fun s =>
    match xs with
    | [] => (Returned nilSlice, s)
    | _ =>
        let h := heap s in
        (Returned (mkSlice (length (arrays h)) 0 (length xs) (length xs)),
         mkState (env s) (mkHeap (composites h) (arrays h ++ [xs])) (trace s))
    end.

(** [make] followed by [copy]: the elements, in a slice no one else holds. *)
Definition snapshot (sl : slice) : M Env (list Limiter) :=
  fun s => (Returned (slice_elems (heap s) sl), s).

(** Reading and writing the struct behind a [*compositeLimiter]. *)
Definition load (p : nat) : M Env compositeLimiter :=
  fun s => match composites (heap s) !! p with
           | Some c => (Returned c, s)
           | None => (Panicked, s)
           end.

Definition store (p : nat) (c : compositeLimiter) : M Env unit :=
  fun s =>
    let h := heap s in
    (Returned tt,
     mkState (env s) (mkHeap (<[p := c]> (composites h)) (arrays h)) (trace s)).

(** *** The composite limiter *)

(** [func NewComposite(limiters ...Limiter) CompositeLimiter]: the struct is
    allocated around the slice it is given. *)
Definition NewComposite (ls : slice) : M Env nat :=
  fun s =>
    let h := heap s in
    (Returned (length (composites h)),
     mkState (env s) (mkHeap (composites h ++ [mkComposite ls]) (arrays h))
             (trace s)).

(** [func (c *compositeLimiter) AddLimiter(limiter Limiter)] *)
Definition compositeLimiter_AddLimiter (p : nat) (l : Limiter) : M Env unit :=
  let* c := load p in
  let* sl := go_append (limiters c) l in
  store p (mkComposite sl).

(** [for _, limiter := range limiters { ... }; return lastTime, nil], where
    [take] is the dynamic call [limiter.Take()]. *)
Fixpoint range_Take (take : Limiter -> M Env (time_Time * option error))
    (ls : list Limiter) (lastTime : time_Time)
    : M Env (time_Time * option error) :=
  match ls with
  | [] => ret (lastTime, None)
  | l :: rest =>
      let* (t, err) := take l in
      match err with
      | Some e =>
          (* On error, fail open *)
          let* t' := time_Now in ret (t', Some e)
      | None => range_Take take rest t
      end
  end.

(** [func (c *compositeLimiter) Take() (time.Time, error)] *)
Definition compositeLimiter_Take
    (take : Limiter -> M Env (time_Time * option error)) (p : nat)
    : M Env (time_Time * option error) :=
  let* c := load p in
  let* ls := snapshot (limiters c) in
  (* If no limiters, fail open *)
  if (length ls =? 0)%nat then
    let* t := time_Now in ret (t, None)
  else
    range_Take take ls zeroTime.

(** [Take] of a limiter implemented outside the package. *)
Definition foreign_Take (id : nat) : M Env (time_Time * option error) :=
  fun s =>
    let '(o, (e, h)) := rt_foreignTake id (env s, heap s) in
    (o, mkState e h (trace s ++ [EvForeign id])).

(** [limiter.Take()] on an interface value: nil panics, anything else goes
    to the method of its dynamic type.  [fuel] bounds the turns of every
    retry loop and the depth of composites inside composites. *)
Fixpoint Limiter_Take (fuel : nat) (l : Limiter)
    : M Env (time_Time * option error) :=
  match l with
  | nilLimiter => panic
  | redisL r => redisLimiter_Take fuel r
  | compositeL p =>
      match fuel with
      | O => blocked
      | S fuel => compositeLimiter_Take (Limiter_Take fuel) p
      end
  | foreignL id => foreign_Take id
  end.

End Package.

(** ** A scripted runtime, to run the package on concrete inputs *)

(** The clock, and what the store and the races will answer, in order. *)
Record Script : Type := mkScript {
  clock : Z;
  replies : list (option Result * option error);
  wakes : list Wake
}.

Definition granted : Result := mkResult (mkLimit 1 1 time_Second) 1 0 (-1) 0.

Definition denied (retry : time_Duration) : Result :=
  mkResult (mkLimit 1 1 time_Second) 0 0 retry retry.

Definition script_Now (e : Script) : time_Time * Script :=
  (clock e, mkScript (clock e + 1) (replies e) (wakes e)).

Definition script_Allow (_ : redis_rate_Limiter) (_ : context_Context)
    (_ : string) (_ : Limit) (e : Script)
    : (option Result * option error) * Script :=
  match replies e with
  | [] => ((Some granted, None), mkScript (clock e + 5) [] (wakes e))
  | r :: rs => (r, mkScript (clock e + 5) rs (wakes e))
  end.

Definition script_After (d : time_Duration) (e : Script) : Script :=
  mkScript (clock e + d) (replies e) (wakes e).

Definition script_Race (d : time_Duration) (_ : nat) (e : Script)
    : Wake * Script :=
  match wakes e with
  | [] => (TimerFired, mkScript (clock e + d) (replies e) [])
  | TimerFired :: ws => (TimerFired, mkScript (clock e + d) (replies e) ws)
  | CtxDone :: ws => (CtxDone, mkScript (clock e + 1) (replies e) ws)
  end.

(** Foreign limiters of the script: 0 grants, 1 fails, 2 panics, 3 never
    returns, 4 grants after emptying the composite at address 0. *)
Definition script_foreignTake (id : nat) (eh : Script * Heap)
    : Outcome (time_Time * option error) * (Script * Heap) :=
  let '(e, h) := eh in
  let e' := mkScript (clock e + 2) (replies e) (wakes e) in
  match id with
  | 0%nat => (Returned (clock e, None), (e', h))
  | 1%nat => (Returned (clock e, Some (errorOf "down")), (e', h))
  | 2%nat => (Panicked, (e', h))
  | 3%nat => (Blocked, (e', h))
  | _ => (Returned (clock e, None),
          (e', mkHeap (<[0%nat := mkComposite nilSlice]> (composites h))
                      (arrays h)))
  end.

#[export] Instance script_Runtime : Runtime Script := {
  rt_Now := script_Now;
  rt_Allow := script_Allow;
  rt_After := script_After;
  rt_Race := script_Race;
  rt_growslice := fun n => (2 * n)%nat;
  rt_foreignTake := script_foreignTake
}.

Definition emptyHeap : Heap := mkHeap [] [].

Definition start (t : Z) (rs : list (option Result * option error))
    (ws : list Wake) : State Script :=
  mkState (mkScript t rs ws) emptyHeap [].

(** *** Inputs for the examples *)

(** Two requests a second under the key "api:per_second", with a context
    that can be cancelled. *)
Definition ex_limiter : redisLimiter :=
  mkRedisLimiter (NewLimiter 0%nat) "api:per_second"
    (mkLimit 2 2 time_Second) (cancelCtx 7).

Definition ex_allow : Event := EvAllow "api:per_second" (mkLimit 2 2 time_Second).

(** A state with nothing on the heap. *)
Definition state_at (t : Z) (rs : list (option Result * option error))
    (ws : list Wake) (tr : list Event) : State Script :=
  mkState (mkScript t rs ws) emptyHeap tr.

(** The state after [c := NewComposite(xs...)] on an empty heap, at time
    [t], with the store answering [rs]. *)
Definition composite_of (xs : list Limiter) (t : Z)
    (rs : list (option Result * option error)) : State Script :=
  snd ((let* sl := variadic xs in NewComposite sl) (start t rs [])).

(** ** A fixed-window store, as a second runtime *)

(** One counter for the current window: [w_used] grants since [w_start].
    A query after the window's end opens a new window; a query within the
    window is allowed while fewer than [Rate] grants were given, and is
    otherwise denied until the window ends.  Contexts are never cancelled
    here, and every foreign limiter grants. *)
Record Window : Type := mkWindow {
  w_clock : Z;
  w_start : Z;
  w_used : nat
}.

Definition window_Now (e : Window) : time_Time * Window :=
  (w_clock e, mkWindow (w_clock e + 1) (w_start e) (w_used e)).

Definition window_Allow (_ : redis_rate_Limiter) (_ : context_Context)
    (_ : string) (lim : Limit) (e : Window)
    : (option Result * option error) * Window :=
  let e1 := if w_start e + Period lim <=? w_clock e
            then mkWindow (w_clock e) (w_clock e) 0
            else e in
  let left := w_start e1 + Period lim - w_clock e1 in
  if Z.of_nat (w_used e1) <? Rate lim then
    ((Some (mkResult lim 1 (Rate lim - Z.of_nat (w_used e1) - 1) (-1) left),
      None),
     mkWindow (w_clock e1 + 1) (w_start e1) (S (w_used e1)))
  else
    ((Some (mkResult lim 0 0 left left), None),
     mkWindow (w_clock e1 + 1) (w_start e1) (w_used e1)).

Definition window_After (d : time_Duration) (e : Window) : Window :=
  mkWindow (w_clock e + d) (w_start e) (w_used e).

Definition window_foreignTake (_ : nat) (eh : Window * Heap)
    : Outcome (time_Time * option error) * (Window * Heap) :=
  (Returned (w_clock (fst eh), None), eh).

#[export] Instance window_Runtime : Runtime Window := {|
  rt_Now := window_Now;
  rt_Allow := window_Allow;
  rt_After := window_After;
  rt_Race := fun d _ e => (TimerFired, window_After d e);
  rt_growslice := fun n => S (2 * n);
  rt_foreignTake := window_foreignTake
|}.

(** Two a second, and none a second, both on the background context. *)
Definition two_per_second : redisLimiter :=
  mkRedisLimiter (NewLimiter 0%nat) "two" (mkLimit 2 2 time_Second) Background.

Definition none_per_second : redisLimiter :=
  mkRedisLimiter (NewLimiter 0%nat) "none" (mkLimit 0 0 time_Second) Background.

Definition window_start (t : Z) : State Window :=
  mkState (mkWindow t t 0) emptyHeap [].


(** Two composites built on one slice of length 1 and capacity 3, as after
    [s := make([]Limiter, 1, 3); c1 := NewComposite(s...);
    c2 := NewComposite(s...)]. *)
Definition shared_state : State Script :=
  mkState (mkScript 0 [] [])
    (mkHeap [mkComposite (mkSlice 0 0 1 3); mkComposite (mkSlice 0 0 1 3)]
       [[foreignL 0; nilLimiter; nilLimiter]])
    [].

(** Two composites built from the arguments of two calls. *)
Definition apart_state : State Script :=
  snd ((let* sl1 := variadic [foreignL 0] in
        let* _ := NewComposite sl1 in
        let* sl2 := variadic [foreignL 1] in
        NewComposite sl2) (start 0 [] [])).

(** A composite added to itself: [c := NewComposite(); c.AddLimiter(c)]. *)
Definition self_state : State Script :=
  snd ((let* p := NewComposite nilSlice in
        compositeLimiter_AddLimiter p (compositeL p)) (start 0 [] [])).


(** ** Runs of the retry loop and of a sequence of limiters *)

Section Runs.

Context {Env : Type} {RT : Runtime Env}.

(** One turn of the loop of [redisLimiter.Take] that ends in [continue]:
    the store answers without error, the answer denies and carries a
    positive [RetryAfter], and the timer fires before the context is done.
    [turn l s s'] leads from the state at the top of the loop to the state
    at the top of the next turn. *)
Inductive turn (l : redisLimiter) (s s' : State Env) : Prop :=
| turn_continue (now : time_Time) (s1 s2 : State Env) (r : Result)
    (done : option nat) :
    time_Now s = (Returned now, s1) ->
    Allow (limiter l) (ctx l) (key l) (limit l) s1
      = (Returned (Some r, None), s2) ->
    Allowed r <= 0 ->
    0 < RetryAfter r ->
    Done (ctx l) s2 = (Returned done, s2) ->
    select_After_Done (RetryAfter r) done s2 = (Returned TimerFired, s') ->
    turn l s s'.

(** [l.Take()] returns [r], taking the state from [s] to [s']. *)
Definition Takes (l : Limiter) (s : State Env)
    (r : time_Time * option error) (s' : State Env) : Prop :=
  exists fuel, Limiter_Take fuel l s = (Returned r, s').

(** Every limiter of the list, called in order, returns without error;
    each call starts in the state the one before it ended in. *)
Inductive grants : list Limiter -> State Env -> State Env -> Prop :=
| grants_nil (s : State Env) : grants [] s s
| grants_cons (l : Limiter) (ls : list Limiter) (s s1 s' : State Env)
    (t : time_Time) :
    Takes l s (t, None) s1 ->
    grants ls s1 s' ->
    grants (l :: ls) s s'.

(** A slice lies within its array. *)
Definition wf_slice (h : Heap) (sl : slice) : Prop :=
  (len sl <= cap sl)%nat /\
  (off sl + cap sl <= length (array_at h (arr sl)))%nat.


(** The four ways the loop of [redisLimiter.Take] is left by [return], in
    the turn that starts in [s0]: the store allows; the store fails; the
    store denies without a backoff; the store denies with a backoff and the
    context is done before the timer fires. *)
Inductive returns_in_turn (l : redisLimiter) (s0 : State Env)
    : time_Time * option error -> State Env -> Prop :=
| return_allowed (now : time_Time) (s1 s2 : State Env) (r : Result) :
    time_Now s0 = (Returned now, s1) ->
    Allow (limiter l) (ctx l) (key l) (limit l) s1
      = (Returned (Some r, None), s2) ->
    0 < Allowed r ->
    returns_in_turn l s0 (now, None) s2
| return_store_error (now t : time_Time) (s1 s2 s3 : State Env)
    (res : option Result) (e : error) :
    time_Now s0 = (Returned now, s1) ->
    Allow (limiter l) (ctx l) (key l) (limit l) s1
      = (Returned (res, Some e), s2) ->
    time_Now s2 = (Returned t, s3) ->
    returns_in_turn l s0 (t, Some e) s3
| return_no_backoff (now : time_Time) (s1 s2 : State Env) (r : Result) :
    time_Now s0 = (Returned now, s1) ->
    Allow (limiter l) (ctx l) (key l) (limit l) s1
      = (Returned (Some r, None), s2) ->
    Allowed r <= 0 ->
    RetryAfter r <= 0 ->
    returns_in_turn l s0 (now, None) s2
| return_cancelled (now t : time_Time) (s1 s2 s3 s4 : State Env)
    (r : Result) (c : nat) :
    time_Now s0 = (Returned now, s1) ->
    Allow (limiter l) (ctx l) (key l) (limit l) s1
      = (Returned (Some r, None), s2) ->
    Allowed r <= 0 ->
    0 < RetryAfter r ->
    ctx l = cancelCtx c ->
    select_After_Done (RetryAfter r) (Some c) s2 = (Returned CtxDone, s3) ->
    time_Now s3 = (Returned t, s4) ->
    returns_in_turn l s0 (t, None) s4.

(** Events that ask the store, and events that wait. *)
Definition is_allow (ev : Event) : bool :=
  match ev with
  | EvAllow _ _ => true
  | _ => false
  end.

Definition is_wait (ev : Event) : bool :=
  match ev with
  | EvAfter _ | EvRace _ _ => true
  | _ => false
  end.

Definition count (f : Event -> bool) (tr : list Event) : nat :=
  length (List.filter f tr).

(** An event that, if it asks the store, asks for the limiter's own key
    and limit. *)
Definition asks_for (l : redisLimiter) (ev : Event) : Prop :=
  forall k lim, ev = EvAllow k lim -> k = key l /\ lim = limit l.

(** Every composite on the heap has a slice that lies within its array. *)
Definition wf_heap (h : Heap) : Prop :=
  forall (p : nat) (c : compositeLimiter),
    composites h !! p = Some c -> wf_slice h (limiters c).

End Runs.

(** * Properties *)

(** Running the first action of a sequence whose result is known. *)
Ltac step H := unfold bind at 1; rewrite H.

(** One turn of the retry loop on a concrete state. *)
Ltac one_turn :=
  eapply nsteps_l;
  [ eapply turn_continue;
    [ reflexivity | reflexivity | vm_compute; discriminate
    | reflexivity | reflexivity | reflexivity ]
  | apply nsteps_O ].


Section Facts.

Context {Env : Type} {RT : Runtime Env}.

Implicit Types (s : State Env) (l : redisLimiter) (r : Result).

Lemma redisLimiter_Take_S (fuel : nat) l :
  redisLimiter_Take (S fuel) l =
  let* now := time_Now in
  let* (res, err) := Allow (limiter l) (ctx l) (key l) (limit l) in
  let* ok := (if is_nil err
              then let* r := deref res in ret (0 <? Allowed r)
              else ret false) in
  if ok then ret (now, None)
  else if negb (is_nil err) then
    let* t := time_Now in ret (t, err)
  else
    match res with
    | None => let* t := time_Now in ret (t, Some ErrIntervalServer)
    | Some r =>
        if 0 <? RetryAfter r then
          let* done := Done (ctx l) in
          let* w := select_After_Done (RetryAfter r) done in
          match w with
          | TimerFired => redisLimiter_Take fuel l
          | CtxDone => let* t := time_Now in ret (t, None)
          end
        else ret (now, None)
    end.
Proof. reflexivity. Qed.

Lemma time_Now_trace s (t : time_Time) (s' : State Env) :
  time_Now s = (Returned t, s') -> trace s' = trace s ++ [EvNow t] /\ heap s' = heap s.
Proof.
  unfold time_Now. destruct (rt_Now (env s)) as [t0 e].
  intros H; inversion H; subst. split; reflexivity.
Qed.

Lemma Allow_trace s rl c k lim (x : option Result * option error) (s' : State Env) :
  Allow rl c k lim s = (Returned x, s') ->
  trace s' = trace s ++ [EvAllow k lim] /\ heap s' = heap s.
Proof.
  unfold Allow. destruct (rt_Allow rl c k lim (env s)) as [x0 e].
  intros H; inversion H; subst. split; reflexivity.
Qed.

(** A turn that ends in [continue] hands the call over to the rest of the
    loop. *)
Lemma Take_turn (fuel : nat) l s (s' : State Env) :
  turn l s s' ->
  redisLimiter_Take (S fuel) l s = redisLimiter_Take fuel l s'.
Proof.
  intros [now s1 s2 r done Hnow Hallow Hden Hretry Hdone Hsel].
  rewrite redisLimiter_Take_S.
  step Hnow. step Hallow. cbn [is_nil deref negb].
  unfold bind at 1. unfold bind at 1. unfold ret at 1. unfold ret at 1.
  destruct (0 <? Allowed r) eqn:E; [apply Z.ltb_lt in E; lia|].
  destruct (0 <? RetryAfter r) eqn:E2; [|apply Z.ltb_ge in E2; lia].
  step Hdone. step Hsel. reflexivity.
Qed.

Lemma Take_turns (k fuel : nat) l s (s' : State Env) :
  nsteps (turn l) k s s' ->
  redisLimiter_Take (k + fuel) l s = redisLimiter_Take fuel l s'.
Proof.
  induction 1 as [|n x y z Hxy _ IH]; [reflexivity|].
  cbn [Nat.add]. rewrite (Take_turn _ Hxy). exact IH.
Qed.

(** ** The single limiter *)

(** C2.  In whatever turn of the loop the store answers without error and
    with [Allowed > 0], [Take] returns at once [(now, nil)], [now] being the
    time read at the top of that turn, before the store was asked; that turn
    has done nothing but read the clock and ask the store once. *)
Theorem Take_allowed_returns_now (k fuel : nat) l s (s0 s1 s2 : State Env)
    (now : time_Time) r :
  nsteps (turn l) k s s0 ->
  time_Now s0 = (Returned now, s1) ->
  Allow (limiter l) (ctx l) (key l) (limit l) s1
    = (Returned (Some r, None), s2) ->
  0 < Allowed r ->
  redisLimiter_Take (k + S fuel) l s = (Returned (now, None), s2) /\
  trace s2 = trace s0 ++ [EvNow now; EvAllow (key l) (limit l)].
Proof.
  intros Hturns Hnow Hallow Hpos. split.
  - rewrite (Take_turns _ Hturns), redisLimiter_Take_S.
    step Hnow. step Hallow. cbn [is_nil deref].
    unfold bind, ret. apply Z.ltb_lt in Hpos. rewrite Hpos. reflexivity.
  - apply time_Now_trace in Hnow as [Hnow _].
    apply Allow_trace in Hallow as [Hallow _].
    rewrite Hallow, Hnow, <- app_assoc. reflexivity.
Qed.

(** C3.  In whatever turn of the loop the store answers with an error,
    [Take] returns that very error, with the time read after the answer; the
    turn has asked the store once and has neither waited nor asked again. *)
Theorem Take_store_error_propagates (k fuel : nat) l s
    (s0 s1 s2 s3 : State Env) (now t : time_Time) (res : option Result)
    (e : error) :
  nsteps (turn l) k s s0 ->
  time_Now s0 = (Returned now, s1) ->
  Allow (limiter l) (ctx l) (key l) (limit l) s1
    = (Returned (res, Some e), s2) ->
  time_Now s2 = (Returned t, s3) ->
  redisLimiter_Take (k + S fuel) l s = (Returned (t, Some e), s3) /\
  trace s3 = trace s0 ++ [EvNow now; EvAllow (key l) (limit l); EvNow t].
Proof.
  intros Hturns Hnow Hallow Hnow2. split.
  - rewrite (Take_turns _ Hturns), redisLimiter_Take_S.
    step Hnow. step Hallow. cbn [is_nil negb].
    unfold bind at 1. unfold ret at 1. cbv iota.
    step Hnow2. reflexivity.
  - apply time_Now_trace in Hnow as [Hnow _].
    apply Allow_trace in Hallow as [Hallow _].
    apply time_Now_trace in Hnow2 as [Hnow2 _].
    rewrite Hnow2, Hallow, Hnow, <- !app_assoc. reflexivity.
Qed.

(** C4, as the code has it.  When the store answers with a nil result and
    no error, the condition [err == nil && res.Allowed > 0] reads a field
    through the nil pointer: [Take] panics there, and the test [res == nil]
    further down, which would return [ErrIntervalServer], is never
    reached. *)
Theorem Take_nil_result_panics (k fuel : nat) l s (s0 s1 s2 : State Env)
    (now : time_Time) :
  nsteps (turn l) k s s0 ->
  time_Now s0 = (Returned now, s1) ->
  Allow (limiter l) (ctx l) (key l) (limit l) s1
    = (Returned (None, None), s2) ->
  redisLimiter_Take (k + S fuel) l s = (Panicked, s2).
Proof.
  intros Hturns Hnow Hallow.
  rewrite (Take_turns _ Hturns), redisLimiter_Take_S.
  step Hnow. step Hallow. reflexivity.
Qed.

(** C5.  In whatever turn of the loop the store denies with a positive
    [RetryAfter] and the limiter's context is done before the timer fires,
    [Take] returns [(t, nil)], [t] being the time read after the wait: the
    cancellation comes back as a grant, with no error. *)
Theorem Take_cancelled_returns_nil (k fuel : nat) l s
    (s0 s1 s2 s3 s4 : State Env) (now t : time_Time) r (c : nat) :
  nsteps (turn l) k s s0 ->
  time_Now s0 = (Returned now, s1) ->
  Allow (limiter l) (ctx l) (key l) (limit l) s1
    = (Returned (Some r, None), s2) ->
  Allowed r <= 0 ->
  0 < RetryAfter r ->
  ctx l = cancelCtx c ->
  select_After_Done (RetryAfter r) (Some c) s2 = (Returned CtxDone, s3) ->
  time_Now s3 = (Returned t, s4) ->
  redisLimiter_Take (k + S fuel) l s = (Returned (t, None), s4).
Proof.
  intros Hturns Hnow Hallow Hden Hretry Hctx Hsel Hnow2.
  rewrite (Take_turns _ Hturns), redisLimiter_Take_S.
  step Hnow. step Hallow. cbn [is_nil deref negb].
  unfold bind at 1. unfold bind at 1. unfold ret at 1. unfold ret at 1.
  destruct (0 <? Allowed r) eqn:E; [apply Z.ltb_lt in E; lia|].
  destruct (0 <? RetryAfter r) eqn:E2; [|apply Z.ltb_ge in E2; lia].
  rewrite Hctx. cbn [Done]. unfold bind at 1. unfold ret at 1.
  step Hsel. step Hnow2. reflexivity.
Qed.

(** C6.  In whatever turn of the loop the store denies (no error, a
    result, [Allowed <= 0]) with [RetryAfter <= 0], [Take] returns
    [(now, nil)] with the time read at the top of that turn; the turn has
    read the clock and asked the store once, and has not waited. *)
Theorem Take_denied_without_backoff_fails_open (k fuel : nat) l s
    (s0 s1 s2 : State Env) (now : time_Time) r :
  nsteps (turn l) k s s0 ->
  time_Now s0 = (Returned now, s1) ->
  Allow (limiter l) (ctx l) (key l) (limit l) s1
    = (Returned (Some r, None), s2) ->
  Allowed r <= 0 ->
  RetryAfter r <= 0 ->
  redisLimiter_Take (k + S fuel) l s = (Returned (now, None), s2) /\
  trace s2 = trace s0 ++ [EvNow now; EvAllow (key l) (limit l)].
Proof.
  intros Hturns Hnow Hallow Hden Hretry. split.
  - rewrite (Take_turns _ Hturns), redisLimiter_Take_S.
    step Hnow. step Hallow. cbn [is_nil deref negb].
    unfold bind, ret.
    destruct (0 <? Allowed r) eqn:E; [apply Z.ltb_lt in E; lia|].
    destruct (0 <? RetryAfter r) eqn:E2; [apply Z.ltb_lt in E2; lia|].
    reflexivity.
  - apply time_Now_trace in Hnow as [Hnow _].
    apply Allow_trace in Hallow as [Hallow _].
    rewrite Hallow, Hnow, <- app_assoc. reflexivity.
Qed.

(** ** New *)

Lemma apply_opts_returns (opts : list Option) (cfg : config) :
  ~ In nilOption opts ->
  exists cfg', apply_opts opts cfg = Returned cfg' /\
    ((forall c, ~ In (WithContext c) opts) -> cfg_ctx cfg' = cfg_ctx cfg).
Proof.
  revert cfg. induction opts as [|o opts IH]; intros cfg Hnil.
  - exists cfg. split; reflexivity.
  - assert (Hrest : ~ In nilOption opts) by (intros H; apply Hnil; right; exact H).
    destruct o as [d|c|]; cbn [apply_opts Option_call].
    + destruct (IH (mkConfig d (cfg_ctx cfg)) Hrest) as (cfg' & Happ & Hctx).
      exists cfg'. split; [exact Happ|]. intros Hno.
      rewrite Hctx; [reflexivity|]. intros c H. apply (Hno c). right. exact H.
    + destruct (IH (mkConfig (cfg_per cfg) c) Hrest) as (cfg' & Happ & Hctx).
      exists cfg'. split; [exact Happ|]. intros Hno.
      exfalso. apply (Hno c). left. reflexivity.
    + exfalso. apply Hnil. left. reflexivity.
Qed.

(** The background context is never done: a wait on it always ends by its
    timer. *)
Lemma Background_never_done (d : time_Duration) s :
  fst ((let* done := Done Background in select_After_Done d done) s)
  = Returned TimerFired.
Proof. reflexivity. Qed.

Lemma apply_opts_no_nil (opts : list Option) (cfg cfg' : config) :
  apply_opts opts cfg = Returned cfg' -> ~ In nilOption opts.
Proof.
  revert cfg. induction opts as [|o opts IH]; intros cfg H.
  - intros [].
  - destruct o as [d|c|]; cbn [apply_opts Option_call] in H.
    + intros [E|Hin]; [discriminate E|]. exact (IH _ H Hin).
    + intros [E|Hin]; [discriminate E|]. exact (IH _ H Hin).
    + discriminate H.
Qed.

(** C9.  [New] returns as soon as each of its options can be called (none
    is the nil function), and whenever it returns, the limiter it has built
    has a limit whose [Rate] and [Burst] both equal [rate]; when none of
    the options is a [WithContext], the limiter's context is the background
    context, on which no wait is ever cut short. *)
Theorem New_burst_is_rate_and_default_context (c : redis_UniversalClient)
    (k : string) (rate : Z) (opts : list Option) :
  (~ In nilOption opts -> exists l, New c k rate opts = Returned l) /\
  (forall l, New c k rate opts = Returned l ->
     Rate (limit l) = rate /\
     Burst (limit l) = rate /\
     ((forall x, ~ In (WithContext x) opts) ->
      ctx l = Background /\
      forall d s,
        fst ((let* done := Done (ctx l) in select_After_Done d done) s)
        = Returned TimerFired)).
Proof.
  unfold New. split.
  - intros Hnil.
    destruct (@apply_opts_returns opts (mkConfig time_Second Background) Hnil)
      as (cfg & Happ & _).
    rewrite Happ. eexists. reflexivity.
  - intros l H.
    destruct (apply_opts opts (mkConfig time_Second Background))
      as [cfg| |] eqn:Happ; try discriminate H.
    destruct (@apply_opts_returns opts (mkConfig time_Second Background)
                (apply_opts_no_nil _ _ Happ)) as (cfg' & Happ' & Hctx).
    rewrite Happ in Happ'. inversion Happ'; subst cfg'.
    inversion H; subst l. cbn [limit Rate Burst ctx].
    split; [reflexivity|]. split; [reflexivity|].
    intros Hno. rewrite (Hctx Hno). cbn [cfg_ctx]. split; [reflexivity|].
    intros d s. apply Background_never_done.
Qed.

(** ** Fuel *)

(** A call that has returned or panicked within [n] steps does the same
    within any larger number of steps. *)
Lemma redisLimiter_Take_mono (n m : nat) l s (o : Outcome (time_Time * option error))
    (s' : State Env) :
  redisLimiter_Take n l s = (o, s') -> o <> Blocked -> (n <= m)%nat ->
  redisLimiter_Take m l s = (o, s').
Proof.
  revert m s. induction n as [|n IH]; intros m s H Hnb Hle.
  - inversion H; subst. contradiction.
  - destruct m as [|m]; [lia|].
    rewrite redisLimiter_Take_S in *. unfold bind in *.
    destruct (time_Now s) as [[now| |] s1]; try exact H.
    destruct (Allow (limiter l) (ctx l) (key l) (limit l) s1)
      as [[[res err]| |] s2]; try exact H.
    destruct err as [e|]; cbn [is_nil negb] in *; [exact H|].
    destruct res as [r|]; cbn [deref] in *; [|exact H].
    unfold ret at 1 in H. unfold ret at 1.
    unfold ret at 1 in H. unfold ret at 1.
    destruct (0 <? Allowed r); [exact H|].
    destruct (0 <? RetryAfter r); [|exact H].
    destruct (Done (ctx l) s2) as [[done| |] s3]; try exact H.
    destruct (select_After_Done (RetryAfter r) done s3) as [[[|]| |] s4];
      try exact H.
    apply IH; [exact H|exact Hnb|lia].
Qed.

Lemma range_Take_mono
    (take1 take2 : Limiter -> M Env (time_Time * option error)) :
  (forall x s o (s' : State Env),
      take1 x s = (o, s') -> o <> Blocked -> take2 x s = (o, s')) ->
  forall (ls : list Limiter) (t0 : time_Time) s o (s' : State Env),
    range_Take take1 ls t0 s = (o, s') -> o <> Blocked ->
    range_Take take2 ls t0 s = (o, s').
Proof.
  intros Hsub ls. induction ls as [|x ls IH]; intros t0 s o s' H Hnb.
  - exact H.
  - cbn [range_Take] in *. unfold bind at 1 in H. unfold bind at 1.
    destruct (take1 x s) as [[[t err]| |] s1] eqn:E.
    + rewrite (Hsub _ _ _ _ E) by discriminate.
      destruct err as [e|]; [exact H|]. apply IH; assumption.
    + inversion H; subst. rewrite (Hsub _ _ _ _ E) by discriminate. reflexivity.
    + inversion H; subst. contradiction.
Qed.

Lemma Limiter_Take_mono (n m : nat) (x : Limiter) s
    (o : Outcome (time_Time * option error)) (s' : State Env) :
  Limiter_Take n x s = (o, s') -> o <> Blocked -> (n <= m)%nat ->
  Limiter_Take m x s = (o, s').
Proof.
  revert m x s o s'. induction n as [|n IH]; intros m x s o s' H Hnb Hle.
  - destruct x as [|l|p|id]; cbn [Limiter_Take] in *.
    + destruct m; exact H.
    + inversion H; subst. contradiction.
    + inversion H; subst. contradiction.
    + destruct m; exact H.
  - destruct m as [|m]; [lia|].
    destruct x as [|l|p|id]; cbn [Limiter_Take] in *.
    + exact H.
    + eapply redisLimiter_Take_mono; [exact H|exact Hnb|lia].
    + unfold compositeLimiter_Take in *. unfold bind in *.
      destruct (load p s) as [[c| |] s1]; try exact H.
      destruct (snapshot (limiters c) s1) as [[ls| |] s2]; try exact H.
      destruct (length ls =? 0)%nat; [exact H|].
      apply (@range_Take_mono (Limiter_Take n) (Limiter_Take m)); [|exact H|exact Hnb].
      intros y sy oy sy' Hy Hynb. apply (IH m y sy oy sy' Hy Hynb). lia.
    + exact H.
Qed.

(** ** The composite limiter *)

Lemma Takes_fuel (x : Limiter) s (r : time_Time * option error)
    (s' : State Env) (n m : nat) :
  Limiter_Take n x s = (Returned r, s') -> (n <= m)%nat ->
  Limiter_Take m x s = (Returned r, s').
Proof. intros H Hle. eapply Limiter_Take_mono; [exact H|discriminate|exact Hle]. Qed.

(** What [Take] of a composite does once the struct is read: it fails open
    on an empty snapshot and otherwise walks the snapshot. *)
Lemma composite_Take_snapshot (n : nat) (p : nat) (c : compositeLimiter) s :
  composites (heap s) !! p = Some c ->
  Limiter_Take (S n) (compositeL p) s =
  (if (length (slice_elems (heap s) (limiters c)) =? 0)%nat
   then let* t := time_Now in ret (t, None)
   else range_Take (Limiter_Take n) (slice_elems (heap s) (limiters c))
          zeroTime) s.
Proof.
  intros Hp. cbn [Limiter_Take]. unfold compositeLimiter_Take.
  unfold bind at 1. unfold load. rewrite Hp.
  unfold bind at 1. unfold snapshot. reflexivity.
Qed.

(** Walking a list whose front grants comes down to walking what is behind
    the front, from the state the front ends in. *)
Lemma range_Take_after_grants (front : list Limiter) s (s1 : State Env) :
  grants front s s1 ->
  exists n0, forall n, (n0 <= n)%nat ->
    forall (x : Limiter) (rest : list Limiter) (t0 : time_Time),
    exists t1,
      range_Take (Limiter_Take n) (front ++ x :: rest) t0 s
      = range_Take (Limiter_Take n) (x :: rest) t1 s1.
Proof.
  induction 1 as [s|y ls s s1 s' t [f Hy] _ [n0 IH]].
  - exists 0%nat. intros n _ x rest t0. exists t0. reflexivity.
  - exists (Nat.max f n0). intros n Hn x rest t0.
    destruct (IH n ltac:(lia) x rest t) as [t1 Ht1].
    exists t1. rewrite <- Ht1.
    change ((y :: ls) ++ x :: rest) with (y :: (ls ++ x :: rest)).
    cbn [range_Take]. unfold bind at 1.
    rewrite (@Takes_fuel y s (t, None) s1 f n Hy) by lia. reflexivity.
Qed.

(** C1.  Over a snapshot [front ++ [lastL]] (any snapshot that is not
    empty), when the limiters of [front], called one after the other in
    that order, all return without error, and [lastL], called in the state
    they leave, returns [(t, nil)], the composite's [Take] returns
    [(t, nil)] and leaves the state the last call left: it has called each
    limiter of the snapshot once, in order, and nothing after the last. *)
Theorem composite_Take_returns_last_grant (p : nat) (c : compositeLimiter)
    s (front : list Limiter) (lastL : Limiter) (s1 s' : State Env)
    (t : time_Time) :
  composites (heap s) !! p = Some c ->
  slice_elems (heap s) (limiters c) = front ++ [lastL] ->
  grants front s s1 ->
  Takes lastL s1 (t, None) s' ->
  Takes (compositeL p) s (t, None) s'.
Proof.
  intros Hp Hsnap Hfront [f Hlast].
  destruct (range_Take_after_grants Hfront) as [n0 Hwalk].
  exists (S (Nat.max f n0)).
  rewrite (@composite_Take_snapshot _ p c s Hp), Hsnap.
  rewrite length_app. cbn [length].
  replace (length front + 1 =? 0)%nat with false
    by (symmetry; apply Nat.eqb_neq; lia).
  destruct (Hwalk (Nat.max f n0) ltac:(lia) lastL [] zeroTime) as [t1 ->].
  cbn [range_Take]. unfold bind at 1.
  rewrite (@Takes_fuel lastL s1 (t, None) s' f (Nat.max f n0) Hlast) by lia. reflexivity.
Qed.

(** The other way round: a composite's [Take] that returns without error
    over a snapshot [ls] that is not empty has called every limiter of [ls]
    in order, each returned without error, and the time is the last one's. *)
Lemma composite_Take_granted_inv (p : nat) (c : compositeLimiter) s
    (ls : list Limiter) (t : time_Time) (s' : State Env) :
  composites (heap s) !! p = Some c ->
  slice_elems (heap s) (limiters c) = ls -> ls <> [] ->
  Takes (compositeL p) s (t, None) s' ->
  exists front lastL s1,
    ls = front ++ [lastL] /\ grants front s s1 /\ Takes lastL s1 (t, None) s'.
Proof.
  intros Hp Hsnap Hne [f H].
  destruct f as [|n]; [discriminate H|].
  rewrite (@composite_Take_snapshot _ p c s Hp), Hsnap in H.
  destruct ls as [|x ls]; [contradiction|]. cbn [length Nat.eqb] in H.
  clear Hp Hsnap Hne c p.
  generalize dependent zeroTime. revert x s.
  induction ls as [|y ls IH]; intros x s t0 H.
  - cbn [range_Take] in H. unfold bind at 1 in H.
    destruct (Limiter_Take n x s) as [[[tx [e|]]| |] sx] eqn:E;
      try discriminate H.
    + unfold bind, ret in H. destruct (time_Now sx) as [[?| |] ?]; discriminate H.
    + inversion H; subst. exists [], x, s.
      split; [reflexivity|]. split; [constructor|]. exists n. exact E.
  - cbn [range_Take] in H. unfold bind at 1 in H.
    destruct (Limiter_Take n x s) as [[[tx [e|]]| |] sx] eqn:E;
      try discriminate H.
    + unfold bind, ret in H. destruct (time_Now sx) as [[?| |] ?]; discriminate H.
    + destruct (IH y sx tx H) as (front & lastL & s1 & Hls & Hfront & Hlast).
      exists (x :: front), lastL, s1. split; [rewrite Hls; reflexivity|].
      split; [|exact Hlast].
      apply grants_cons with (s1 := sx) (t := tx); [exists n; exact E|exact Hfront].
Qed.

(** C7.  A composite whose snapshot is empty returns [(now, nil)], [now]
    being the time it reads, whatever number of steps it is given and
    whatever [Take] would do on any limiter: it reads the clock and does
    nothing else. *)
Theorem composite_Take_empty_fails_open (fuel : nat) (p : nat)
    (c : compositeLimiter) s (now : time_Time) (s' : State Env) :
  composites (heap s) !! p = Some c ->
  slice_elems (heap s) (limiters c) = [] ->
  time_Now s = (Returned now, s') ->
  Limiter_Take (S fuel) (compositeL p) s = (Returned (now, None), s') /\
  (forall take, compositeLimiter_Take take p s = (Returned (now, None), s')) /\
  trace s' = trace s ++ [EvNow now].
Proof.
  intros Hp Hsnap Hnow.
  assert (Hany : forall take,
             compositeLimiter_Take take p s = (Returned (now, None), s')).
  { intros take. unfold compositeLimiter_Take.
    unfold bind at 1. unfold load. rewrite Hp.
    unfold bind at 1. unfold snapshot. rewrite Hsnap. cbn [length Nat.eqb].
    unfold bind. rewrite Hnow. reflexivity. }
  split; [apply Hany|]. split; [exact Hany|].
  apply time_Now_trace in Hnow as [Hnow _]. exact Hnow.
Qed.

(** C8.  Over a snapshot [front ++ failing :: rest], when the limiters of
    [front] all return without error and [failing] then returns the error
    [e], the composite's [Take] reads the clock and returns [(now, e)]: the
    state it leaves is the one [failing] left, with the clock read once, so
    no limiter of [rest] has been called, whatever [rest] holds. *)
Theorem composite_Take_aborts_on_first_error (p : nat)
    (c : compositeLimiter) s (front rest : list Limiter) (failing : Limiter)
    (s1 s2 s3 : State Env) (t now : time_Time) (e : error) :
  composites (heap s) !! p = Some c ->
  slice_elems (heap s) (limiters c) = front ++ failing :: rest ->
  grants front s s1 ->
  Takes failing s1 (t, Some e) s2 ->
  time_Now s2 = (Returned now, s3) ->
  Takes (compositeL p) s (now, Some e) s3 /\
  trace s3 = trace s2 ++ [EvNow now].
Proof.
  intros Hp Hsnap Hfront [f Hfail] Hnow. split.
  - destruct (range_Take_after_grants Hfront) as [n0 Hwalk].
    exists (S (Nat.max f n0)).
    rewrite (@composite_Take_snapshot _ p c s Hp), Hsnap.
    rewrite length_app. cbn [length].
    replace (length front + S (length rest) =? 0)%nat with false
      by (symmetry; apply Nat.eqb_neq; lia).
    destruct (Hwalk (Nat.max f n0) ltac:(lia) failing rest zeroTime) as [t1 ->].
    cbn [range_Take]. unfold bind at 1.
    rewrite (@Takes_fuel failing s1 (t, Some e) s2 f (Nat.max f n0) Hfail) by lia.
    unfold bind. rewrite Hnow. reflexivity.
  - apply time_Now_trace in Hnow as [Hnow _]. exact Hnow.
Qed.

(** ** AddLimiter *)

Lemma take_drop_insert_snoc (A : list Limiter) (o n : nat) (x : Limiter) :
  (o + n < length A)%nat ->
  take (S n) (drop o (<[(o + n)%nat := x]> A)) = take n (drop o A) ++ [x].
Proof.
  revert A. induction o as [|o IH]; intros A Hlt.
  - change (0 + n)%nat with n in *. rewrite !drop_0.
    rewrite (take_S_r _ _ x) by (apply list_lookup_insert_eq; exact Hlt).
    rewrite take_insert_ge by lia. reflexivity.
  - destruct A as [|a A]; cbn [length] in Hlt; [lia|].
    cbn [Nat.add]. cbn. apply IH. lia.
Qed.

(** [append] on a slice that lies within its array returns a slice that
    shows the old elements followed by the new one, and lies within its
    array; nothing but arrays is touched. *)
Lemma go_append_elems (sl : slice) (x : Limiter) s :
  wf_slice (heap s) sl ->
  exists sl' s',
    go_append sl x s = (Returned sl', s') /\
    slice_elems (heap s') sl' = slice_elems (heap s) sl ++ [x] /\
    wf_slice (heap s') sl' /\
    composites (heap s') = composites (heap s) /\
    env s' = env s /\ trace s' = trace s.
Proof.
  intros [Hlen Hcap]. unfold go_append.
  destruct (len sl <? cap sl)%nat eqn:E.
  - apply Nat.ltb_lt in E.
    eexists _, _. split; [reflexivity|]. cbn [heap env trace composites arrays].
    assert (Harr : exists A, arrays (heap s) !! arr sl = Some A).
    { unfold array_at in Hcap.
      destruct (arrays (heap s) !! arr sl) as [A|]; [exists A; reflexivity|].
      cbn in Hcap. lia. }
    destruct Harr as [A HA].
    assert (Hnew : array_at
                     (mkHeap (composites (heap s))
                        (<[arr sl := <[(off sl + len sl)%nat := x]>
                                       (array_at (heap s) (arr sl))]>
                           (arrays (heap s))))
                     (arr sl)
                   = <[(off sl + len sl)%nat := x]> A).
    { unfold array_at at 1. cbn [arrays].
      rewrite list_lookup_insert_eq by (apply lookup_lt_Some in HA; exact HA).
      unfold array_at. rewrite HA. reflexivity. }
    assert (HAat : array_at (heap s) (arr sl) = A)
      by (unfold array_at; rewrite HA; reflexivity).
    rewrite HAat in Hcap.
    split; [|split; [|repeat split]].
    + unfold slice_elems. cbn [arr off len]. rewrite Hnew, HAat.
      apply take_drop_insert_snoc. lia.
    + unfold wf_slice. cbn [arr off len cap]. rewrite Hnew, length_insert. lia.
  - apply Nat.ltb_ge in E.
    eexists _, _. split; [reflexivity|]. cbn [heap env trace composites arrays].
    set (newcap := Nat.max (S (len sl)) (rt_growslice (cap sl))).
    set (a := slice_elems (heap s) sl ++
              x :: replicate (newcap - S (len sl)) nilLimiter).
    assert (Hel : length (slice_elems (heap s) sl) = len sl).
    { unfold slice_elems. rewrite length_take, length_drop. lia. }
    assert (Hnew : array_at
                     (mkHeap (composites (heap s)) (arrays (heap s) ++ [a]))
                     (length (arrays (heap s))) = a).
    { unfold array_at. cbn [arrays].
      rewrite lookup_app_r by lia. rewrite Nat.sub_diag. reflexivity. }
    split; [|split; [|repeat split]].
    + unfold slice_elems at 1. cbn [arr off len]. rewrite Hnew. cbn [drop].
      subst a. change (?l ++ x :: ?k) with (l ++ [x] ++ k).
      rewrite app_assoc. apply take_app_length'.
      rewrite length_app, Hel. cbn [length app]. lia.
    + unfold wf_slice. cbn [arr off len cap]. rewrite Hnew. subst a.
      rewrite length_app, Hel. cbn [length]. rewrite length_replicate.
      subst newcap. lia.
Qed.

(** C10.  [AddLimiter] on a composite whose slice lies within its array
    returns, for any limiter value (nil as well: the argument is not
    looked at), and leaves the composite with the old sequence followed by
    the new limiter: one element longer, every old element at its old
    index, the new one last. *)
Theorem AddLimiter_appends_one (p : nat) (c : compositeLimiter)
    (x : Limiter) s :
  composites (heap s) !! p = Some c ->
  wf_slice (heap s) (limiters c) ->
  exists s' c',
    compositeLimiter_AddLimiter p x s = (Returned tt, s') /\
    composites (heap s') !! p = Some c' /\
    wf_slice (heap s') (limiters c') /\
    slice_elems (heap s') (limiters c')
      = slice_elems (heap s) (limiters c) ++ [x] /\
    length (slice_elems (heap s') (limiters c'))
      = S (length (slice_elems (heap s) (limiters c))) /\
    (forall (i : nat) (y : Limiter),
        slice_elems (heap s) (limiters c) !! i = Some y ->
        slice_elems (heap s') (limiters c') !! i = Some y) /\
    last (slice_elems (heap s') (limiters c')) = Some x.
Proof.
  intros Hp Hwf.
  destruct (@go_append_elems (limiters c) x s Hwf)
    as (sl' & s1 & Happ & Hel & Hwf' & Hcomp & _ & _).
  exists (mkState (env s1)
            (mkHeap (<[p := mkComposite sl']> (composites (heap s1)))
               (arrays (heap s1)))
            (trace s1)), (mkComposite sl').
  assert (Hsame : forall sl0,
             slice_elems
               (mkHeap (<[p := mkComposite sl']> (composites (heap s1)))
                  (arrays (heap s1))) sl0
             = slice_elems (heap s1) sl0) by reflexivity.
  split; [|split; [|split; [|split; [|split; [|split]]]]].
  - unfold compositeLimiter_AddLimiter.
    unfold bind at 1. unfold load. rewrite Hp.
    unfold bind at 1. rewrite Happ. reflexivity.
  - cbn [heap composites]. apply list_lookup_insert_eq.
    rewrite Hcomp. apply lookup_lt_Some in Hp. exact Hp.
  - exact Hwf'.
  - cbn [heap limiters]. rewrite Hsame. exact Hel.
  - cbn [heap limiters]. rewrite Hsame, Hel, length_app. cbn [length]. lia.
  - intros i y Hi. cbn [heap limiters]. rewrite Hsame, Hel.
    rewrite lookup_app_l by (apply lookup_lt_Some in Hi; exact Hi). exact Hi.
  - cbn [heap limiters]. rewrite Hsame, Hel. apply last_snoc.
Qed.

(** ** More on New and its options *)

Lemma apply_opts_app (a b : list Option) (cfg : config) :
  apply_opts (a ++ b) cfg =
  match apply_opts a cfg with
  | Returned cfg' => apply_opts b cfg'
  | Panicked => Panicked
  | Blocked => Blocked
  end.
Proof.
  revert cfg. induction a as [|o a IH]; intros cfg; [reflexivity|].
  cbn [app apply_opts]. destruct (Option_call o cfg); [apply IH| |]; reflexivity.
Qed.

Lemma apply_opts_keeps_per (opts : list Option) (cfg cfg' : config) :
  (forall d, ~ In (Per d) opts) ->
  apply_opts opts cfg = Returned cfg' -> cfg_per cfg' = cfg_per cfg.
Proof.
  revert cfg. induction opts as [|o opts IH]; intros cfg Hno H.
  - inversion H; reflexivity.
  - assert (Hrest : forall d, ~ In (Per d) opts)
      by (intros d Hd; apply (Hno d); right; exact Hd).
    destruct o as [d|c|]; cbn [apply_opts Option_call] in H.
    + exfalso. apply (Hno d). left. reflexivity.
    + rewrite (IH _ Hrest H). reflexivity.
    + discriminate H.
Qed.

Lemma apply_opts_keeps_ctx (opts : list Option) (cfg cfg' : config) :
  (forall x, ~ In (WithContext x) opts) ->
  apply_opts opts cfg = Returned cfg' -> cfg_ctx cfg' = cfg_ctx cfg.
Proof.
  revert cfg. induction opts as [|o opts IH]; intros cfg Hno H.
  - inversion H; reflexivity.
  - assert (Hrest : forall x, ~ In (WithContext x) opts)
      by (intros x Hx; apply (Hno x); right; exact Hx).
    destruct o as [d|c|]; cbn [apply_opts Option_call] in H.
    + rewrite (IH _ Hrest H). reflexivity.
    + exfalso. apply (Hno c). left. reflexivity.
    + discriminate H.
Qed.

Lemma apply_opts_Panicked (opts : list Option) (cfg : config) :
  apply_opts opts cfg = Panicked <-> In nilOption opts.
Proof.
  revert cfg. induction opts as [|o opts IH]; intros cfg.
  - cbn. split; [discriminate|intros []].
  - destruct o as [d|c|]; cbn [apply_opts Option_call].
    + rewrite IH. split; [intros H; right; exact H|].
      intros [E|H]; [discriminate E|exact H].
    + rewrite IH. split; [intros H; right; exact H|].
      intros [E|H]; [discriminate E|exact H].
    + split; [intros _; left; reflexivity|reflexivity].
Qed.

Lemma New_inv (c : redis_UniversalClient) (k : string) (rate : Z)
    (opts : list Option) l :
  New c k rate opts = Returned l ->
  exists cfg, apply_opts opts (mkConfig time_Second Background) = Returned cfg /\
    l = mkRedisLimiter (NewLimiter c) k (mkLimit rate rate (cfg_per cfg))
          (cfg_ctx cfg).
Proof.
  unfold New. intros H.
  destruct (apply_opts opts (mkConfig time_Second Background)) as [cfg| |];
    try discriminate H.
  inversion H. exists cfg. split; reflexivity.
Qed.

(** [New] panics exactly when one of its options is the nil function: the
    loop over the options calls each of them. *)
Theorem New_panics_iff_nil_option (c : redis_UniversalClient) (k : string)
    (rate : Z) (opts : list Option) :
  New c k rate opts = Panicked <-> In nilOption opts.
Proof.
  rewrite <- (apply_opts_Panicked opts (mkConfig time_Second Background)).
  unfold New.
  destruct (apply_opts opts (mkConfig time_Second Background));
    split; intros H; try discriminate H; reflexivity.
Qed.

(** Without a [Per] option the limiter [New] returns has a period of one
    second, and it holds the key and the client [New] was given. *)
Theorem New_defaults_to_one_second (c : redis_UniversalClient) (k : string)
    (rate : Z) (opts : list Option) l :
  (forall d, ~ In (Per d) opts) ->
  New c k rate opts = Returned l ->
  Period (limit l) = time_Second /\ key l = k /\ limiter l = NewLimiter c.
Proof.
  intros Hno H. destruct (New_inv _ _ _ _ H) as (cfg & Happ & ->).
  cbn [limit Period key limiter].
  rewrite (@apply_opts_keeps_per _ _ _ Hno Happ). repeat split.
Qed.

(** Of several [Per] options the last one decides: with [Per d] followed
    by options none of which is a [Per], the period is [d], whatever came
    before. *)
Theorem New_last_Per_wins (c : redis_UniversalClient) (k : string)
    (rate : Z) (before after : list Option) (d : time_Duration) l :
  (forall d', ~ In (Per d') after) ->
  New c k rate (before ++ Per d :: after) = Returned l ->
  Period (limit l) = d.
Proof.
  intros Hno H. destruct (New_inv _ _ _ _ H) as (cfg & Happ & ->).
  cbn [limit Period]. rewrite apply_opts_app in Happ.
  destruct (apply_opts before (mkConfig time_Second Background)) as [cfg0| |];
    try discriminate Happ.
  cbn [apply_opts Option_call] in Happ.
  rewrite (@apply_opts_keeps_per _ _ _ Hno Happ). reflexivity.
Qed.

(** Of several [WithContext] options the last one decides, and a [Per]
    after it does not undo it. *)
Theorem New_last_WithContext_wins (c : redis_UniversalClient) (k : string)
    (rate : Z) (before after : list Option) (x : context_Context) l :
  (forall x', ~ In (WithContext x') after) ->
  New c k rate (before ++ WithContext x :: after) = Returned l ->
  ctx l = x.
Proof.
  intros Hno H. destruct (New_inv _ _ _ _ H) as (cfg & Happ & ->).
  cbn [ctx]. rewrite apply_opts_app in Happ.
  destruct (apply_opts before (mkConfig time_Second Background)) as [cfg0| |];
    try discriminate Happ.
  cbn [apply_opts Option_call] in Happ.
  rewrite (@apply_opts_keeps_ctx _ _ _ Hno Happ). reflexivity.
Qed.

(** ** How the single limiter's Take can end *)

Lemma time_Now_returns s :
  exists (t : time_Time) (s1 : State Env), time_Now s = (Returned t, s1).
Proof.
  unfold time_Now. destruct (rt_Now (env s)) as [t e]. eexists _, _. reflexivity.
Qed.

Lemma Allow_returns rl (c : context_Context) (k : string) (lim : Limit) s :
  exists (s2 : State Env),
    Allow rl c k lim s = (Returned (fst (rt_Allow rl c k lim (env s))), s2).
Proof.
  unfold Allow. destruct (rt_Allow rl c k lim (env s)) as [x e].
  eexists. reflexivity.
Qed.

Lemma select_trace (d : time_Duration) (done : option nat) s (w : Wake)
    (s' : State Env) :
  select_After_Done d done s = (Returned w, s') ->
  heap s' = heap s /\
  exists ev, trace s' = trace s ++ [ev] /\ is_wait ev = true.
Proof.
  unfold select_After_Done. destruct done as [c|].
  - destruct (rt_Race d c (env s)) as [w0 e]. intros H; inversion H; subst.
    split; [reflexivity|]. exists (EvRace d c). split; reflexivity.
  - intros H; inversion H; subst.
    split; [reflexivity|]. exists (EvAfter d). split; reflexivity.
Qed.

Lemma Done_state (c : context_Context) s (done : option nat) (s' : State Env) :
  Done c s = (Returned done, s') -> s' = s.
Proof. destruct c; cbn; intros H; inversion H; reflexivity. Qed.

(** Whatever [Take] returns, it returns in one of the four ways, after some
    turns that ended in [continue]. *)
Lemma Take_returns_cases (fuel : nat) l s (r : time_Time * option error)
    (s' : State Env) :
  redisLimiter_Take fuel l s = (Returned r, s') ->
  exists (k : nat) (s0 : State Env),
    (k < fuel)%nat /\ nsteps (turn l) k s s0 /\ returns_in_turn l s0 r s'.
Proof.
  revert s. induction fuel as [|fuel IH]; intros s H; [discriminate H|].
  rewrite redisLimiter_Take_S in H. unfold bind at 1 in H.
  destruct (time_Now s) as [[now| |] s1] eqn:Hnow; try discriminate H.
  unfold bind at 1 in H.
  destruct (Allow (limiter l) (ctx l) (key l) (limit l) s1)
    as [[[res err]| |] s2] eqn:Hallow; try discriminate H.
  destruct err as [e|]; cbn [is_nil negb] in H.
  - unfold bind at 1 in H. unfold ret at 1 in H. cbv iota in H.
    unfold bind in H.
    destruct (time_Now s2) as [[t| |] s3] eqn:Hnow2; try discriminate H.
    inversion H; subst. exists 0%nat, s. split; [lia|].
    split; [constructor|]. eapply return_store_error; eassumption.
  - destruct res as [r0|]; cbn [deref] in H; [|discriminate H].
    unfold bind at 1 in H. unfold bind at 1 in H.
    unfold ret at 1 in H. unfold ret at 1 in H.
    destruct (0 <? Allowed r0) eqn:E.
    + inversion H; subst. exists 0%nat, s. split; [lia|].
      split; [constructor|]. apply Z.ltb_lt in E.
      eapply return_allowed; eassumption.
    + apply Z.ltb_ge in E.
      destruct (0 <? RetryAfter r0) eqn:E2.
      * apply Z.ltb_lt in E2. unfold bind at 1 in H.
        destruct (Done (ctx l) s2) as [[done| |] s2'] eqn:Hdone;
          try discriminate H.
        pose proof (Done_state _ _ Hdone) as ->.
        unfold bind at 1 in H.
        destruct (select_After_Done (RetryAfter r0) done s2)
          as [[[|]| |] s3] eqn:Hsel; try discriminate H.
        -- destruct (IH _ H) as (k & s0 & Hk & Hturns & Hret).
           exists (S k), s0. split; [lia|]. split; [|exact Hret].
           eapply nsteps_l; [|exact Hturns].
           eapply turn_continue; eassumption.
        -- unfold bind in H.
           destruct (time_Now s3) as [[t| |] s4] eqn:Hnow2; try discriminate H.
           inversion H; subst. exists 0%nat, s. split; [lia|].
           split; [constructor|].
           destruct (ctx l) as [| |c] eqn:Hctx; cbn [Done] in Hdone;
             try discriminate Hdone.
           ++ inversion Hdone; subst done. cbn in Hsel. discriminate Hsel.
           ++ inversion Hdone; subst done. rewrite <- Hctx in Hallow.
              eapply return_cancelled; eassumption.
      * apply Z.ltb_ge in E2. inversion H; subst. exists 0%nat, s.
        split; [lia|]. split; [constructor|].
        eapply return_no_backoff; eassumption.
Qed.

Lemma returns_in_turn_Take (fuel : nat) l s (r : time_Time * option error)
    (s' : State Env) :
  returns_in_turn l s r s' ->
  redisLimiter_Take (S fuel) l s = (Returned r, s').
Proof.
  intros H. rewrite redisLimiter_Take_S.
  destruct H as [now s1 s2 r0 Hnow Hallow Hpos
                |now t s1 s2 s3 res e Hnow Hallow Hnow2
                |now s1 s2 r0 Hnow Hallow Hden Hretry
                |now t s1 s2 s3 s4 r0 c Hnow Hallow Hden Hretry Hctx Hsel Hnow2].
  - step Hnow. step Hallow. cbn [is_nil deref].
    unfold bind, ret. apply Z.ltb_lt in Hpos. rewrite Hpos. reflexivity.
  - step Hnow. step Hallow. cbn [is_nil negb].
    unfold bind at 1. unfold ret at 1. cbv iota. step Hnow2. reflexivity.
  - step Hnow. step Hallow. cbn [is_nil deref negb]. unfold bind, ret.
    destruct (0 <? Allowed r0) eqn:E; [apply Z.ltb_lt in E; lia|].
    destruct (0 <? RetryAfter r0) eqn:E2; [apply Z.ltb_lt in E2; lia|].
    reflexivity.
  - step Hnow. step Hallow. cbn [is_nil deref negb].
    unfold bind at 1. unfold bind at 1. unfold ret at 1. unfold ret at 1.
    destruct (0 <? Allowed r0) eqn:E; [apply Z.ltb_lt in E; lia|].
    destruct (0 <? RetryAfter r0) eqn:E2; [|apply Z.ltb_ge in E2; lia].
    rewrite Hctx. cbn [Done]. unfold bind at 1. unfold ret at 1.
    step Hsel. step Hnow2. reflexivity.
Qed.

(** [Take] of a single limiter returns [r] exactly when, after some turns
    in which the store denied with a backoff and the timer fired, a turn
    returns [r] in one of the four ways of [returns_in_turn]: the store
    allows, the store fails, the store denies without a backoff, or the
    context is done during the backoff.  There is no other way out. *)
Theorem Take_returns_iff l s (r : time_Time * option error) (s' : State Env) :
  (exists fuel, redisLimiter_Take fuel l s = (Returned r, s')) <->
  (exists (k : nat) (s0 : State Env),
      nsteps (turn l) k s s0 /\ returns_in_turn l s0 r s').
Proof.
  split.
  - intros [fuel H]. destruct (Take_returns_cases _ _ _ H) as (k & s0 & _ & Ht & Hr).
    exists k, s0. split; assumption.
  - intros (k & s0 & Ht & Hr). exists (k + 1)%nat.
    rewrite (Take_turns _ Ht). apply returns_in_turn_Take. exact Hr.
Qed.

(** An error [Take] returns is an error the store has just returned: the
    last thing the call did before reading the clock was a store query
    that failed with that very error.  In particular [Take] returns
    [ErrIntervalServer] only if the store itself did. *)
Theorem Take_error_comes_from_store (fuel : nat) l s (t : time_Time)
    (e : error) (s' : State Env) :
  redisLimiter_Take fuel l s = (Returned (t, Some e), s') ->
  exists (s1 s2 : State Env) (res : option Result),
    Allow (limiter l) (ctx l) (key l) (limit l) s1
      = (Returned (res, Some e), s2) /\
    time_Now s2 = (Returned t, s').
Proof.
  intros H. destruct (Take_returns_cases _ _ _ H) as (k & s0 & _ & _ & Hr).
  inversion Hr; subst. eexists _, _, _. split; eassumption.
Qed.

(** With the background context, a [Take] that returns without error
    returns on a store answer: the state it leaves is the one the store
    query left, the answer either allows or denies without a backoff, and
    the time is the one read just before the query. *)
Theorem Take_background_grant_is_store_answer (fuel : nat) l s
    (t : time_Time) (s' : State Env) :
  ctx l = Background ->
  redisLimiter_Take fuel l s = (Returned (t, None), s') ->
  exists (s0 s1 : State Env) (r : Result),
    time_Now s0 = (Returned t, s1) /\
    Allow (limiter l) (ctx l) (key l) (limit l) s1
      = (Returned (Some r, None), s') /\
    (0 < Allowed r \/ RetryAfter r <= 0).
Proof.
  intros Hbg H. destruct (Take_returns_cases _ _ _ H) as (k & s0 & _ & _ & Hr).
  inversion Hr; subst.
  - eexists _, _, _. split; [eassumption|]. split; [eassumption|]. left. assumption.
  - eexists _, _, _. split; [eassumption|]. split; [eassumption|]. right. assumption.
  - congruence.
Qed.

(** ** Panics, blocking, and what Take does to the outside *)

(** As long as the store never answers with neither a result nor an error
    and the limiter's context is not nil, [Take] does not panic, however
    long it runs and whatever else the store answers. *)
Theorem Take_never_panics (fuel : nat) l s :
  (forall e : Env,
      fst (rt_Allow (limiter l) (ctx l) (key l) (limit l) e) <> (None, None)) ->
  ctx l <> nilContext ->
  fst (redisLimiter_Take fuel l s) <> Panicked.
Proof.
  intros Hstore Hctx. revert s.
  induction fuel as [|fuel IH]; intros s; [discriminate|].
  rewrite redisLimiter_Take_S.
  destruct (time_Now_returns s) as (now & s1 & Hnow). step Hnow.
  destruct (Allow_returns (limiter l) (ctx l) (key l) (limit l) s1)
    as (s2 & Hallow).
  specialize (Hstore (env s1)).
  destruct (fst (rt_Allow (limiter l) (ctx l) (key l) (limit l) (env s1)))
    as [res err].
  step Hallow.
  destruct err as [e|]; cbn [is_nil negb].
  - unfold bind at 1. unfold ret at 1. cbv iota.
    destruct (time_Now_returns s2) as (t & s3 & Hnow2). step Hnow2.
    discriminate.
  - destruct res as [r|]; [|congruence]. cbn [deref].
    unfold bind at 1. unfold bind at 1. unfold ret at 1. unfold ret at 1.
    destruct (0 <? Allowed r); [discriminate|].
    destruct (0 <? RetryAfter r); [|discriminate].
    destruct (ctx l) as [| |c]; [congruence| |]; cbn [Done].
    + unfold bind at 1. unfold ret at 1. unfold bind at 1. cbn. apply IH.
    + unfold bind at 1. unfold ret at 1. unfold bind at 1.
      unfold select_After_Done.
      destruct (rt_Race (RetryAfter r) c (env s2)) as [[|] e'].
      * apply IH.
      * unfold bind. cbn [emit].
        match goal with |- context [time_Now ?x] =>
          destruct (time_Now_returns x) as (t & s4 & Hnow2); rewrite Hnow2
        end. discriminate.
Qed.

(** On the background context, as long as the store answers every query of
    this limiter by a denial with a positive backoff, [Take] does not
    return, however many turns it is given. *)
Theorem Take_blocks_while_denied (fuel : nat) l s :
  (forall e : Env, exists r,
      fst (rt_Allow (limiter l) (ctx l) (key l) (limit l) e) = (Some r, None) /\
      Allowed r <= 0 /\ 0 < RetryAfter r) ->
  ctx l = Background ->
  fst (redisLimiter_Take fuel l s) = Blocked.
Proof.
  intros Hstore Hctx. revert s.
  induction fuel as [|fuel IH]; intros s; [reflexivity|].
  rewrite redisLimiter_Take_S.
  destruct (time_Now_returns s) as (now & s1 & Hnow). step Hnow.
  destruct (Allow_returns (limiter l) (ctx l) (key l) (limit l) s1)
    as (s2 & Hallow).
  destruct (Hstore (env s1)) as (r & Hr & Hden & Hretry).
  rewrite Hr in Hallow. step Hallow. cbn [is_nil deref negb].
  unfold bind at 1. unfold bind at 1. unfold ret at 1. unfold ret at 1.
  destruct (0 <? Allowed r) eqn:E; [apply Z.ltb_lt in E; lia|].
  destruct (0 <? RetryAfter r) eqn:E2; [|apply Z.ltb_ge in E2; lia].
  rewrite Hctx. cbn [Done]. unfold bind at 1. unfold ret at 1.
  unfold bind at 1. cbn [select_After_Done]. apply IH.
Qed.

(** A limiter built with [WithContext(nil)] panics the first time the
    store denies with a positive backoff: [Take] then calls [Done] on the
    nil context. *)
Theorem Take_nil_context_panics_on_backoff (fuel : nat) l s
    (s1 s2 : State Env) (now : time_Time) r :
  ctx l = nilContext ->
  time_Now s = (Returned now, s1) ->
  Allow (limiter l) (ctx l) (key l) (limit l) s1
    = (Returned (Some r, None), s2) ->
  Allowed r <= 0 ->
  0 < RetryAfter r ->
  redisLimiter_Take (S fuel) l s = (Panicked, s2).
Proof.
  intros Hctx Hnow Hallow Hden Hretry. rewrite redisLimiter_Take_S.
  step Hnow. step Hallow. cbn [is_nil deref negb].
  unfold bind at 1. unfold bind at 1. unfold ret at 1. unfold ret at 1.
  destruct (0 <? Allowed r) eqn:E; [apply Z.ltb_lt in E; lia|].
  destruct (0 <? RetryAfter r) eqn:E2; [|apply Z.ltb_ge in E2; lia].
  rewrite Hctx. reflexivity.
Qed.

Lemma count_app (f : Event -> bool) (a b : list Event) :
  count f (a ++ b) = (count f a + count f b)%nat.
Proof. unfold count. rewrite List.filter_app, length_app. reflexivity. Qed.

Lemma asks_for_allow l : asks_for l (EvAllow (key l) (limit l)).
Proof. intros k lim E. inversion E. split; reflexivity. Qed.

Lemma asks_for_other l (ev : Event) : is_allow ev = false -> asks_for l ev.
Proof. intros H k lim E. subst ev. discriminate H. Qed.

Lemma is_wait_not_allow (ev : Event) : is_wait ev = true -> is_allow ev = false.
Proof. destruct ev; cbn; congruence. Qed.

Ltac asks :=
  repeat first
    [ apply List.Forall_nil
    | apply List.Forall_cons;
      [ first [ apply asks_for_allow
              | apply asks_for_other; first [reflexivity | apply is_wait_not_allow; assumption] ]
      | ] ].

Lemma turns_trace (k : nat) l s (s0 : State Env) :
  nsteps (turn l) k s s0 ->
  heap s0 = heap s /\
  exists tr, trace s0 = trace s ++ tr /\ Forall (asks_for l) tr /\
    count is_allow tr = k /\ count is_wait tr = k.
Proof.
  induction 1 as [s|n s sm s0 Hturn _ (Hheap & tr & Htr & Hall & Ha & Hw)].
  - split; [reflexivity|]. exists []. rewrite app_nil_r. repeat split. constructor.
  - destruct Hturn as [now s1 s2 r done Hnow Hallow _ _ Hdone Hsel].
    apply time_Now_trace in Hnow as [Hnow Hh1].
    apply Allow_trace in Hallow as [Hallow Hh2].
    apply select_trace in Hsel as (Hh3 & ev & Hsel & Hev).
    split; [congruence|].
    exists ([EvNow now; EvAllow (key l) (limit l); ev] ++ tr).
    split; [rewrite Htr, Hsel, Hallow, Hnow, <- !app_assoc; reflexivity|].
    split.
    + apply Forall_app. split; [|exact Hall]. asks.
    + rewrite !count_app, Ha, Hw. unfold count. cbn [List.filter is_allow is_wait].
      destruct ev; cbn in Hev; try discriminate Hev; cbn; split; reflexivity.
Qed.

(** What a [Take] that returns has done to the outside: it has left the
    heap alone; it has asked the store only for its own key and limit; and
    it has asked once more than it has waited, or, when it was cut short by
    its context, as often as it has waited.  It never asks twice without
    waiting in between, and a returned error always follows a query. *)
Theorem Take_asks_once_per_turn (fuel : nat) l s
    (r : time_Time * option error) (s' : State Env) :
  redisLimiter_Take fuel l s = (Returned r, s') ->
  heap s' = heap s /\
  exists tr, trace s' = trace s ++ tr /\
    Forall (asks_for l) tr /\
    (count is_allow tr = S (count is_wait tr) \/
     (count is_allow tr = count is_wait tr /\ snd r = None /\
      exists c, ctx l = cancelCtx c)).
Proof.
  intros H. destruct (Take_returns_cases _ _ _ H) as (k & s0 & _ & Ht & Hr).
  destruct (turns_trace Ht) as (Hheap & tr & Htr & Hall & Ha & Hw).
  destruct Hr as [now s1 s2 r0 Hnow Hallow Hpos
                 |now t s1 s2 s3 res e Hnow Hallow Hnow2
                 |now s1 s2 r0 Hnow Hallow Hden Hretry
                 |now t s1 s2 s3 s4 r0 c Hnow Hallow Hden Hretry Hctx Hsel Hnow2].
  - apply time_Now_trace in Hnow as [Hnow Hh1].
    apply Allow_trace in Hallow as [Hallow Hh2].
    split; [congruence|].
    exists (tr ++ [EvNow now; EvAllow (key l) (limit l)]).
    split; [rewrite Hallow, Hnow, Htr, <- !app_assoc; reflexivity|].
    split; [apply Forall_app; split; [exact Hall|asks]|].
    left. rewrite !count_app, Ha, Hw. cbn. lia.
  - apply time_Now_trace in Hnow as [Hnow Hh1].
    apply Allow_trace in Hallow as [Hallow Hh2].
    apply time_Now_trace in Hnow2 as [Hnow2 Hh3].
    split; [congruence|].
    exists (tr ++ [EvNow now; EvAllow (key l) (limit l); EvNow t]).
    split; [rewrite Hnow2, Hallow, Hnow, Htr, <- !app_assoc; reflexivity|].
    split; [apply Forall_app; split; [exact Hall|asks]|].
    left. rewrite !count_app, Ha, Hw. cbn. lia.
  - apply time_Now_trace in Hnow as [Hnow Hh1].
    apply Allow_trace in Hallow as [Hallow Hh2].
    split; [congruence|].
    exists (tr ++ [EvNow now; EvAllow (key l) (limit l)]).
    split; [rewrite Hallow, Hnow, Htr, <- !app_assoc; reflexivity|].
    split; [apply Forall_app; split; [exact Hall|asks]|].
    left. rewrite !count_app, Ha, Hw. cbn. lia.
  - apply time_Now_trace in Hnow as [Hnow Hh1].
    apply Allow_trace in Hallow as [Hallow Hh2].
    apply select_trace in Hsel as (Hh3 & ev & Hsel & Hev).
    apply time_Now_trace in Hnow2 as [Hnow2 Hh4].
    split; [congruence|].
    exists (tr ++ [EvNow now; EvAllow (key l) (limit l); ev; EvNow t]).
    split; [rewrite Hnow2, Hsel, Hallow, Hnow, Htr, <- !app_assoc; reflexivity|].
    split.
    + apply Forall_app; split; [exact Hall|]. asks.
    + right. split; [|split; [reflexivity|exists c; exact Hctx]].
      rewrite !count_app, Ha, Hw. unfold count. cbn [List.filter is_allow is_wait].
      destruct ev; cbn in Hev; try discriminate Hev; cbn; lia.
Qed.

(** ** More on the composite's Take *)

Lemma range_Take_error_inv (n : nat) (ls : list Limiter) (t0 t : time_Time)
    (e : error) s (s' : State Env) :
  range_Take (Limiter_Take n) ls t0 s = (Returned (t, Some e), s') ->
  exists (front rest : list Limiter) (failing : Limiter) (s1 s2 : State Env)
         (t1 : time_Time),
    ls = front ++ failing :: rest /\ grants front s s1 /\
    Takes failing s1 (t1, Some e) s2 /\ time_Now s2 = (Returned t, s').
Proof.
  revert t0 s. induction ls as [|x ls IH]; intros t0 s H; [discriminate H|].
  cbn [range_Take] in H. unfold bind at 1 in H.
  destruct (Limiter_Take n x s) as [[[tx [ex|]]| |] sx] eqn:E;
    try discriminate H.
  - unfold bind, ret in H.
    destruct (time_Now sx) as [[t'| |] s3] eqn:Hnow; try discriminate H.
    inversion H; subst. exists [], ls, x, s, sx, tx.
    split; [reflexivity|]. split; [constructor|].
    split; [exists n; exact E|exact Hnow].
  - destruct (IH _ _ H) as (front & rest & failing & s1 & s2 & t1 &
                            Hls & Hfront & Hfail & Hnow).
    exists (x :: front), rest, failing, s1, s2, t1.
    split; [rewrite Hls; reflexivity|]. split; [|split; assumption].
    apply grants_cons with (s1 := sx) (t := tx); [exists n; exact E|exact Hfront].
Qed.

(** A composite's [Take] returns an error only if a limiter of its
    snapshot has returned that error after all limiters before it had
    returned without error; the time is then read after that limiter's
    call.  An error is never made up by the composite itself. *)
Theorem composite_Take_error_inv (p : nat) (c : compositeLimiter) s
    (t : time_Time) (e : error) (s' : State Env) :
  composites (heap s) !! p = Some c ->
  Takes (compositeL p) s (t, Some e) s' ->
  exists (front rest : list Limiter) (failing : Limiter) (s1 s2 : State Env)
         (t1 : time_Time),
    slice_elems (heap s) (limiters c) = front ++ failing :: rest /\
    grants front s s1 /\
    Takes failing s1 (t1, Some e) s2 /\
    time_Now s2 = (Returned t, s').
Proof.
  intros Hp [f H]. destruct f as [|n]; [discriminate H|].
  rewrite (@composite_Take_snapshot _ p c s Hp) in H.
  destruct (length (slice_elems (heap s) (limiters c)) =? 0)%nat.
  - unfold bind, ret in H.
    destruct (time_Now s) as [[?| |] ?]; discriminate H.
  - eapply range_Take_error_inv. exact H.
Qed.

(** Walking a list whose front grants and whose next limiter panics ends
    in that panic. *)
Lemma range_Take_panics (front rest : list Limiter) (x : Limiter) s
    (s1 s2 : State Env) :
  grants front s s1 ->
  (exists f, Limiter_Take f x s1 = (Panicked, s2)) ->
  exists n0, forall n, (n0 <= n)%nat -> forall t0,
    range_Take (Limiter_Take n) (front ++ x :: rest) t0 s = (Panicked, s2).
Proof.
  intros Hfront [f Hx].
  destruct (range_Take_after_grants Hfront) as [n0 Hwalk].
  exists (Nat.max f n0). intros n Hn t0.
  destruct (Hwalk n ltac:(lia) x rest t0) as [t1 ->].
  cbn [range_Take]. unfold bind at 1.
  rewrite (@Limiter_Take_mono f n x s1 Panicked s2 Hx) by (discriminate || lia).
  reflexivity.
Qed.

(** A nil limiter in the snapshot makes the composite's [Take] panic as
    soon as every limiter before it has returned without error: the calls
    made so far keep their effect, and nothing behind the nil limiter is
    called. *)
Theorem composite_Take_nil_constituent_panics (p : nat)
    (c : compositeLimiter) s (front rest : list Limiter) (s1 : State Env) :
  composites (heap s) !! p = Some c ->
  slice_elems (heap s) (limiters c) = front ++ nilLimiter :: rest ->
  grants front s s1 ->
  exists n0, forall n, (n0 <= n)%nat ->
    Limiter_Take n (compositeL p) s = (Panicked, s1).
Proof.
  intros Hp Hsnap Hfront.
  destruct (@range_Take_panics front rest nilLimiter s s1 s1 Hfront)
    as [n0 Hwalk]; [exists 0%nat; reflexivity|].
  exists (S n0). intros n Hn. destruct n as [|n]; [lia|].
  rewrite (@composite_Take_snapshot _ p c s Hp), Hsnap.
  rewrite length_app. cbn [length].
  replace (length front + S (length rest) =? 0)%nat with false
    by (symmetry; apply Nat.eqb_neq; lia).
  apply Hwalk. lia.
Qed.

(** A composite whose snapshot starts with the composite itself never
    returns: each call copies the same sequence and calls itself again.
    (In Go the recursion ends the program once the stack is used up.) *)
Theorem composite_Take_on_itself_never_returns (fuel : nat) (p : nat)
    (c : compositeLimiter) s (rest : list Limiter) :
  composites (heap s) !! p = Some c ->
  slice_elems (heap s) (limiters c) = compositeL p :: rest ->
  Limiter_Take fuel (compositeL p) s = (Blocked, s).
Proof.
  intros Hp Hsnap. induction fuel as [|n IH]; [reflexivity|].
  rewrite (@composite_Take_snapshot _ p c s Hp), Hsnap.
  cbn [length Nat.eqb range_Take]. unfold bind. rewrite IH. reflexivity.
Qed.

(** ** The heap: NewComposite, AddLimiter and what they leave alone *)

Lemma array_at_out (h : Heap) (a : nat) :
  (length (arrays h) <= a)%nat -> array_at h a = [].
Proof.
  intros H. unfold array_at. rewrite (proj2 (lookup_ge_None _ _) H). reflexivity.
Qed.

Lemma array_at_alloc (h : Heap) (cs : list compositeLimiter)
    (A : list Limiter) (a : nat) :
  (a < length (arrays h))%nat ->
  array_at (mkHeap cs (arrays h ++ [A])) a = array_at h a.
Proof.
  intros H. unfold array_at. cbn [arrays]. rewrite lookup_app_l by exact H.
  reflexivity.
Qed.

Lemma array_at_alloc_new (h : Heap) (cs : list compositeLimiter)
    (A : list Limiter) :
  array_at (mkHeap cs (arrays h ++ [A])) (length (arrays h)) = A.
Proof.
  unfold array_at. cbn [arrays]. rewrite lookup_app_r by lia.
  rewrite Nat.sub_diag. reflexivity.
Qed.

Lemma array_at_write_other (h : Heap) (cs : list compositeLimiter)
    (A : list Limiter) (a a' : nat) :
  a' <> a -> array_at (mkHeap cs (<[a := A]> (arrays h))) a' = array_at h a'.
Proof.
  intros H. unfold array_at. cbn [arrays].
  rewrite list_lookup_insert_ne by congruence. reflexivity.
Qed.

Lemma array_at_write_length (h : Heap) (cs : list compositeLimiter)
    (A : list Limiter) (a a' : nat) :
  length A = length (array_at h a) ->
  length (array_at (mkHeap cs (<[a := A]> (arrays h))) a')
  = length (array_at h a').
Proof.
  intros HA. destruct (Nat.eq_dec a' a) as [->|Hne].
  - unfold array_at at 1. cbn [arrays].
    destruct (Nat.lt_ge_cases a (length (arrays h))) as [Hlt|Hge].
    + rewrite list_lookup_insert_eq by exact Hlt. exact HA.
    + rewrite list_insert_ge by exact Hge. reflexivity.
  - rewrite array_at_write_other by exact Hne. reflexivity.
Qed.

(** A slice within its array shows the same elements, and stays within its
    array, when a new array is allocated. *)
Lemma slice_alloc (h : Heap) (cs : list compositeLimiter) (A : list Limiter)
    (sl : slice) :
  wf_slice h sl ->
  slice_elems (mkHeap cs (arrays h ++ [A])) sl = slice_elems h sl /\
  wf_slice (mkHeap cs (arrays h ++ [A])) sl.
Proof.
  intros [Hlen Hcap].
  destruct (Nat.lt_ge_cases (arr sl) (length (arrays h))) as [Hlt|Hge].
  - unfold slice_elems, wf_slice. rewrite array_at_alloc by exact Hlt.
    repeat split; assumption.
  - rewrite (array_at_out _ Hge) in Hcap. cbn [length] in Hcap.
    assert (Hz : len sl = 0%nat) by lia.
    unfold slice_elems, wf_slice. rewrite Hz. cbn [take]. repeat split; lia.
Qed.

(** What [AddLimiter] does to the state, for the two cases of [append]. *)
Lemma AddLimiter_run (p : nat) (c : compositeLimiter) (x : Limiter) s :
  composites (heap s) !! p = Some c ->
  compositeLimiter_AddLimiter p x s =
  (Returned tt,
   let h := heap s in
   let sl := limiters c in
   if (len sl <? cap sl)%nat then
     mkState (env s)
       (mkHeap (<[p := mkComposite
                          (mkSlice (arr sl) (off sl) (S (len sl)) (cap sl))]>
                  (composites h))
          (<[arr sl := <[(off sl + len sl)%nat := x]> (array_at h (arr sl))]>
             (arrays h)))
       (trace s)
   else
     let newcap := Nat.max (S (len sl)) (rt_growslice (cap sl)) in
     mkState (env s)
       (mkHeap (<[p := mkComposite
                          (mkSlice (length (arrays h)) 0 (S (len sl)) newcap)]>
                  (composites h))
          (arrays h ++
           [slice_elems h sl ++
            x :: replicate (newcap - S (len sl)) nilLimiter]))
       (trace s)).
Proof.
  intros Hp. unfold compositeLimiter_AddLimiter.
  unfold bind at 1. unfold load. rewrite Hp.
  unfold bind at 1. unfold go_append.
  destruct (len (limiters c) <? cap (limiters c))%nat; reflexivity.
Qed.

Lemma AddLimiter_elems (p : nat) (c : compositeLimiter) (x : Limiter) s :
  composites (heap s) !! p = Some c ->
  wf_slice (heap s) (limiters c) ->
  exists s' c',
    compositeLimiter_AddLimiter p x s = (Returned tt, s') /\
    composites (heap s') !! p = Some c' /\
    wf_slice (heap s') (limiters c') /\
    slice_elems (heap s') (limiters c')
      = slice_elems (heap s) (limiters c) ++ [x].
Proof.
  intros Hp Hwf.
  destruct (@go_append_elems (limiters c) x s Hwf)
    as (sl' & s1 & Happ & Hel & Hwf' & Hcomp & _ & _).
  eexists _, (mkComposite sl'). split.
  - unfold compositeLimiter_AddLimiter.
    unfold bind at 1. unfold load. rewrite Hp.
    unfold bind at 1. rewrite Happ. reflexivity.
  - cbn [heap composites limiters]. split; [|split].
    + apply list_lookup_insert_eq. rewrite Hcomp.
      apply lookup_lt_Some in Hp. exact Hp.
    + exact Hwf'.
    + exact Hel.
Qed.

(** [NewComposite(xs...)] returns a pointer no composite had before; the
    new composite shows exactly [xs], in order, in a slice within its
    array; every composite that was there is still there and shows what it
    showed; nothing outside the heap is touched. *)
Theorem NewComposite_holds_its_arguments (xs : list Limiter) s :
  exists (s' : State Env) (c : compositeLimiter),
    (let* sl := variadic xs in NewComposite sl) s
      = (Returned (length (composites (heap s))), s') /\
    composites (heap s) !! length (composites (heap s)) = None /\
    composites (heap s') !! length (composites (heap s)) = Some c /\
    slice_elems (heap s') (limiters c) = xs /\
    wf_slice (heap s') (limiters c) /\
    (forall q c0, composites (heap s) !! q = Some c0 ->
                  composites (heap s') !! q = Some c0) /\
    (forall sl0, wf_slice (heap s) sl0 ->
                 slice_elems (heap s') sl0 = slice_elems (heap s) sl0 /\
                 wf_slice (heap s') sl0) /\
    env s' = env s /\ trace s' = trace s.
Proof.
  destruct xs as [|x xs].
  - eexists _, (mkComposite nilSlice). split; [reflexivity|].
    cbn [heap composites arrays env trace].
    split; [apply lookup_ge_None; lia|].
    split; [rewrite lookup_app_r by lia; rewrite Nat.sub_diag; reflexivity|].
    split; [reflexivity|].
    split; [split; cbn; lia|].
    split; [intros q c0 Hq; rewrite lookup_app_l
                                by (apply lookup_lt_Some in Hq; exact Hq);
            exact Hq|].
    split; [intros sl0 Hwf; split; [reflexivity|exact Hwf]|].
    split; reflexivity.
  - eexists _, (mkComposite (mkSlice (length (arrays (heap s))) 0
                               (length (x :: xs)) (length (x :: xs)))).
    split; [reflexivity|].
    cbn [heap composites arrays env trace].
    split; [apply lookup_ge_None; lia|].
    split; [rewrite lookup_app_r by lia; rewrite Nat.sub_diag; reflexivity|].
    split.
    { unfold slice_elems. cbn [arr off len limiters].
      rewrite (array_at_alloc_new (heap s)). rewrite drop_0.
      apply firstn_all. }
    split.
    { split; cbn [arr off len cap limiters]; [lia|].
      rewrite (array_at_alloc_new (heap s)). cbn [length]. lia. }
    split; [intros q c0 Hq; rewrite lookup_app_l
                                by (apply lookup_lt_Some in Hq; exact Hq);
            exact Hq|].
    split; [intros sl0 Hwf; apply slice_alloc; exact Hwf|].
    split; reflexivity.
Qed.

(** A [Take] that starts after [AddLimiter] has returned walks the old
    sequence and then the limiter just added. *)
Theorem Take_after_AddLimiter_sees_it (p : nat) (c : compositeLimiter)
    (x : Limiter) s :
  composites (heap s) !! p = Some c ->
  wf_slice (heap s) (limiters c) ->
  exists s',
    compositeLimiter_AddLimiter p x s = (Returned tt, s') /\
    forall n,
      Limiter_Take (S n) (compositeL p) s'
      = range_Take (Limiter_Take n)
          (slice_elems (heap s) (limiters c) ++ [x]) zeroTime s'.
Proof.
  intros Hp Hwf.
  destruct (@AddLimiter_elems p c x s Hp Hwf) as (s' & c' & Hrun & Hp' & _ & Hel).
  exists s'. split; [exact Hrun|]. intros n.
  rewrite (@composite_Take_snapshot _ p c' s' Hp'), Hel.
  rewrite length_app. cbn [length].
  replace (length (slice_elems (heap s) (limiters c)) + 1 =? 0)%nat with false
    by (symmetry; apply Nat.eqb_neq; lia).
  reflexivity.
Qed.

(** [AddLimiter] on one composite leaves every other composite as it was,
    struct and elements, provided the two do not share an array with room
    left: either the slice appended to is full, so that [append] moves to a
    new array, or the other composite lives in another array.  The clock,
    the store and the trace are not touched. *)
Theorem AddLimiter_leaves_others_alone (p q : nat) (c c0 : compositeLimiter)
    (x : Limiter) s :
  q <> p ->
  composites (heap s) !! p = Some c ->
  composites (heap s) !! q = Some c0 ->
  wf_slice (heap s) (limiters c0) ->
  len (limiters c) = cap (limiters c) \/
    arr (limiters c0) <> arr (limiters c) ->
  exists s',
    compositeLimiter_AddLimiter p x s = (Returned tt, s') /\
    composites (heap s') !! q = Some c0 /\
    slice_elems (heap s') (limiters c0) = slice_elems (heap s) (limiters c0) /\
    env s' = env s /\ trace s' = trace s.
Proof.
  intros Hne Hp Hq Hwf0 Hcase.
  eexists. split; [apply (@AddLimiter_run p c x s Hp)|]. cbv zeta.
  destruct (len (limiters c) <? cap (limiters c))%nat eqn:E;
    cbn [heap composites env trace].
  - apply Nat.ltb_lt in E. destruct Hcase as [Hfull|Harr]; [lia|].
    split; [rewrite list_lookup_insert_ne by congruence; exact Hq|].
    split; [|split; reflexivity].
    unfold slice_elems. rewrite array_at_write_other by exact Harr. reflexivity.
  - split; [rewrite list_lookup_insert_ne by congruence; exact Hq|].
    split; [|split; reflexivity].
    apply slice_alloc; exact Hwf0.
Qed.

(** The other side of it: two composites built on one slice with room left
    write to the same cell.  After [AddLimiter(x)] on the first and
    [AddLimiter(y)] on the second, the first shows [y] as its last element,
    not [x]. *)
Theorem AddLimiter_on_shared_slice_overwrites (p1 p2 : nat) (sl : slice)
    (x y : Limiter) s :
  p1 <> p2 ->
  composites (heap s) !! p1 = Some (mkComposite sl) ->
  composites (heap s) !! p2 = Some (mkComposite sl) ->
  wf_slice (heap s) sl ->
  (len sl < cap sl)%nat ->
  exists (s1 s2 : State Env) (c1 : compositeLimiter),
    compositeLimiter_AddLimiter p1 x s = (Returned tt, s1) /\
    compositeLimiter_AddLimiter p2 y s1 = (Returned tt, s2) /\
    composites (heap s2) !! p1 = Some c1 /\
    slice_elems (heap s2) (limiters c1) = slice_elems (heap s) sl ++ [y].
Proof.
  intros Hne Hp1 Hp2 [Hlen Hcap] Hroom.
  assert (Harr : exists A, arrays (heap s) !! arr sl = Some A).
  { unfold array_at in Hcap.
    destruct (arrays (heap s) !! arr sl) as [A|]; [exists A; reflexivity|].
    cbn in Hcap. lia. }
  destruct Harr as [A HA].
  assert (HAat : array_at (heap s) (arr sl) = A)
    by (unfold array_at; rewrite HA; reflexivity).
  assert (Hin : (arr sl < length (arrays (heap s)))%nat)
    by (apply lookup_lt_Some in HA; exact HA).
  rewrite HAat in Hcap.
  pose proof (proj2 (Nat.ltb_lt _ _) Hroom) as E.
  eexists _, _, _. split.
  { rewrite (@AddLimiter_run p1 (mkComposite sl) x s Hp1). cbv zeta. cbn [limiters]. rewrite E.
    reflexivity. }
  split.
  { erewrite AddLimiter_run; cbn [heap composites];
      [|rewrite list_lookup_insert_ne by congruence; exact Hp2].
    cbv zeta. cbn [limiters]. rewrite E. reflexivity. }
  cbn [heap composites arrays].
  split.
  { rewrite list_lookup_insert_ne by congruence.
    apply list_lookup_insert_eq. apply lookup_lt_Some in Hp1. exact Hp1. }
  cbn [limiters]. unfold slice_elems. cbn [arr off len].
  unfold array_at at 1. cbn [arrays].
  rewrite list_lookup_insert_eq by (rewrite length_insert; exact Hin).
  cbn [default]. unfold array_at at 1. cbn [arrays].
  rewrite list_lookup_insert_eq by exact Hin. cbn [default].
  unfold id. rewrite list_insert_insert_eq, HAat.
  apply take_drop_insert_snoc. lia.
Qed.

Lemma redisLimiter_Take_heap (fuel : nat) l s :
  heap (snd (redisLimiter_Take fuel l s)) = heap s.
Proof.
  revert s. induction fuel as [|fuel IH]; intros s; [reflexivity|].
  rewrite redisLimiter_Take_S.
  destruct (time_Now_returns s) as (now & s1 & Hnow).
  pose proof (time_Now_trace _ Hnow) as [_ Hh1]. step Hnow.
  destruct (Allow (limiter l) (ctx l) (key l) (limit l) s1)
    as [[[res err]| |] s2] eqn:Hallow;
    try (unfold Allow in Hallow;
         destruct (rt_Allow (limiter l) (ctx l) (key l) (limit l) (env s1));
         discriminate Hallow).
  pose proof (Allow_trace _ _ _ _ _ Hallow) as [_ Hh2]. unfold bind at 1.
  rewrite Hallow.
  destruct err as [e|]; cbn [is_nil negb].
  - unfold bind at 1. unfold ret at 1. cbv iota.
    destruct (time_Now_returns s2) as (t & s3 & Hnow2).
    pose proof (time_Now_trace _ Hnow2) as [_ Hh3]. step Hnow2.
    cbn [snd ret]. congruence.
  - destruct res as [r|]; cbn [deref]; [|unfold bind, panic; cbn [snd]; congruence].
    unfold bind at 1. unfold bind at 1. unfold ret at 1. unfold ret at 1.
    destruct (0 <? Allowed r); [cbn [snd ret]; congruence|].
    destruct (0 <? RetryAfter r); [|cbn [snd ret]; congruence].
    unfold bind at 1.
    destruct (Done (ctx l) s2) as [[done| |] s2'] eqn:Hdone;
      try (destruct (ctx l); cbn in Hdone; inversion Hdone; subst;
           cbn [snd]; congruence).
    pose proof (Done_state _ _ Hdone) as ->.
    unfold bind at 1.
    destruct (select_After_Done (RetryAfter r) done s2)
      as [[w| |] s3] eqn:Hsel;
      try (unfold select_After_Done in Hsel; destruct done;
           [destruct (rt_Race (RetryAfter r) n (env s2))|];
           discriminate Hsel).
    pose proof (select_trace _ _ _ Hsel) as (Hh3 & _).
    destruct w.
    + rewrite IH. congruence.
    + destruct (time_Now_returns s3) as (t & s4 & Hnow2).
      pose proof (time_Now_trace _ Hnow2) as [_ Hh4]. step Hnow2.
      cbn [snd ret]. congruence.
Qed.

(** Every slice on the heap lying within its array is an invariant of the
    package: it holds of the empty heap, [NewComposite] on the arguments of
    a call and [AddLimiter] keep it, and [Take] of a single limiter does
    not touch the heap at all.  So the heaps the package builds meet the
    condition under which [AddLimiter] is shown to append. *)
Theorem wf_heap_is_kept :
  wf_heap emptyHeap /\
  (forall xs s, wf_heap (heap s) ->
     wf_heap (heap (snd ((let* sl := variadic xs in NewComposite sl) s)))) /\
  (forall p x s, wf_heap (heap s) ->
     wf_heap (heap (snd (compositeLimiter_AddLimiter p x s)))) /\
  (forall fuel l s, heap (snd (redisLimiter_Take fuel l s)) = heap s).
Proof.
  split; [intros p c H; destruct p; discriminate H|].
  split; [|split; [|intros; apply redisLimiter_Take_heap]].
  - intros xs s Hwf q c0 Hq.
    assert (Hold : forall c1, composites (heap s) !! q = Some c1 ->
              forall A cs, wf_slice (mkHeap cs (arrays (heap s) ++ [A]))
                             (limiters c1))
      by (intros c1 H1 A cs; apply slice_alloc; exact (Hwf _ _ H1)).
    destruct xs as [|x xs]; unfold bind, variadic, NewComposite in Hq |- *;
      cbn [snd heap composites arrays] in Hq |- *.
    + destruct (Nat.lt_ge_cases q (length (composites (heap s)))) as [Hlt|Hge].
      * rewrite lookup_app_l in Hq by exact Hlt. exact (Hwf _ _ Hq).
      * rewrite lookup_app_r in Hq by exact Hge.
        destruct (q - length (composites (heap s)))%nat; [|discriminate Hq].
        inversion Hq. split; cbn; lia.
    + destruct (Nat.lt_ge_cases q (length (composites (heap s)))) as [Hlt|Hge].
      * rewrite lookup_app_l in Hq by exact Hlt. apply Hold. exact Hq.
      * rewrite lookup_app_r in Hq by exact Hge.
        destruct (q - length (composites (heap s)))%nat; [|discriminate Hq].
        inversion Hq. split; cbn [limiters arr off len cap]; [lia|].
        rewrite (array_at_alloc_new (heap s)). cbn [length]. lia.
  - intros p x s Hwf.
    destruct (composites (heap s) !! p) as [c|] eqn:Hp.
    + destruct (@AddLimiter_elems p c x s Hp (Hwf _ _ Hp))
        as (s' & c' & Hrun & Hp' & Hwf' & _).
      rewrite Hrun. cbn [snd]. intros q c0 Hq.
      destruct (Nat.eq_dec q p) as [->|Hne]; [congruence|].
      rewrite (@AddLimiter_run p c x s Hp) in Hrun.
      inversion Hrun as [Hs']. clear Hrun. cbv zeta in Hs'.
      destruct (len (limiters c) <? cap (limiters c))%nat eqn:E;
        subst s'; cbn [heap composites] in Hq |- *;
        rewrite list_lookup_insert_ne in Hq by congruence;
        pose proof (Hwf _ _ Hq) as [Hlen Hcap].
      * split; [exact Hlen|].
        rewrite array_at_write_length by (apply length_insert). exact Hcap.
      * apply slice_alloc. split; assumption.
    + unfold compositeLimiter_AddLimiter, bind, load. rewrite Hp.
      cbn [snd]. exact Hwf.
Qed.

End Facts.

(** * The properties at work on the scripted runtime *)

(** The store denies with a backoff of 50, the timer fires, the store then
    allows: [Take] returns the time read at the top of the second turn. *)
Lemma Take_allowed_returns_now_witness :
  redisLimiter_Take (1 + 1) ex_limiter
    (start 100 [(Some (denied 50), None); (Some granted, None)] [TimerFired])
  = (Returned (156, None),
     state_at 162 [] []
       [EvNow 100; ex_allow; EvRace 50 7; EvNow 156; ex_allow]) /\
  trace (state_at 162 [] []
           [EvNow 100; ex_allow; EvRace 50 7; EvNow 156; ex_allow])
  = trace (state_at 156 [(Some granted, None)] []
             [EvNow 100; ex_allow; EvRace 50 7])
    ++ [EvNow 156; EvAllow (key ex_limiter) (limit ex_limiter)].
Proof.
  eapply (@Take_allowed_returns_now Script script_Runtime 1 0 ex_limiter
            _ (state_at 156 [(Some granted, None)] []
                 [EvNow 100; ex_allow; EvRace 50 7])).
  - one_turn.
  - reflexivity.
  - reflexivity.
  - reflexivity.
Defined.

(** The store denies, the timer fires, the store then fails: [Take]
    returns the store's error. *)
Lemma Take_store_error_propagates_witness :
  redisLimiter_Take (1 + 1) ex_limiter
    (start 100 [(Some (denied 50), None);
                (None, Some (errorOf "connection refused"))] [TimerFired])
  = (Returned (162, Some (errorOf "connection refused")),
     state_at 163 [] []
       [EvNow 100; ex_allow; EvRace 50 7; EvNow 156; ex_allow; EvNow 162]) /\
  trace (state_at 163 [] []
           [EvNow 100; ex_allow; EvRace 50 7; EvNow 156; ex_allow; EvNow 162])
  = trace (state_at 156 [(None, Some (errorOf "connection refused"))] []
             [EvNow 100; ex_allow; EvRace 50 7])
    ++ [EvNow 156; EvAllow (key ex_limiter) (limit ex_limiter); EvNow 162].
Proof.
  eapply (@Take_store_error_propagates Script script_Runtime 1 0 ex_limiter
            _ (state_at 156 [(None, Some (errorOf "connection refused"))] []
                 [EvNow 100; ex_allow; EvRace 50 7])).
  - one_turn.
  - reflexivity.
  - reflexivity.
  - reflexivity.
Defined.

(** The store answers with neither a result nor an error: [Take] panics. *)
Lemma Take_nil_result_panics_witness :
  redisLimiter_Take (0 + 1) ex_limiter (start 100 [(None, None)] [])
  = (Panicked, state_at 106 [] [] [EvNow 100; ex_allow]).
Proof.
  eapply (@Take_nil_result_panics Script script_Runtime 0 0 ex_limiter).
  - apply nsteps_O.
  - reflexivity.
  - reflexivity.
Defined.

(** The store denies with a backoff of 50 and the context is done first. *)
Lemma Take_cancelled_returns_nil_witness :
  redisLimiter_Take (0 + 1) ex_limiter
    (start 100 [(Some (denied 50), None)] [CtxDone])
  = (Returned (107, None),
     state_at 108 [] [] [EvNow 100; ex_allow; EvRace 50 7; EvNow 107]).
Proof.
  eapply (@Take_cancelled_returns_nil Script script_Runtime 0 0 ex_limiter).
  - apply nsteps_O.
  - reflexivity.
  - reflexivity.
  - vm_compute. discriminate.
  - reflexivity.
  - reflexivity.
  - reflexivity.
  - reflexivity.
Defined.

(** The store denies and gives no backoff. *)
Lemma Take_denied_without_backoff_fails_open_witness :
  redisLimiter_Take (0 + 1) ex_limiter
    (start 100 [(Some (denied 0), None)] [])
  = (Returned (100, None), state_at 106 [] [] [EvNow 100; ex_allow]) /\
  trace (state_at 106 [] [] [EvNow 100; ex_allow])
  = trace (start 100 [(Some (denied 0), None)] [])
    ++ [EvNow 100; EvAllow (key ex_limiter) (limit ex_limiter)].
Proof.
  eapply (@Take_denied_without_backoff_fails_open Script script_Runtime
            0 0 ex_limiter).
  - apply nsteps_O.
  - reflexivity.
  - reflexivity.
  - vm_compute. discriminate.
  - vm_compute. discriminate.
Defined.

(** Ten requests a minute, no context given. *)
Lemma New_burst_is_rate_and_default_context_witness :
  New 0%nat "api:per_minute" 10 [Per (60 * time_Second)]
  = Returned (mkRedisLimiter (NewLimiter 0%nat) "api:per_minute"
                (mkLimit 10 10 (60 * time_Second)) Background) /\
  Burst (mkLimit 10 10 (60 * time_Second)) = 10 /\
  forall d (s : State Script),
    fst ((let* done := Done Background in select_After_Done d done) s)
    = Returned TimerFired.
Proof.
  split; [reflexivity|].
  destruct (proj2 (@New_burst_is_rate_and_default_context Script
                     script_Runtime 0%nat "api:per_minute" 10
                     [Per (60 * time_Second)])
              (mkRedisLimiter (NewLimiter 0%nat) "api:per_minute"
                 (mkLimit 10 10 (60 * time_Second)) Background)
              eq_refl) as (_ & Hburst & Hctx).
  split; [exact Hburst|].
  apply Hctx. intros x [H|[]]. discriminate H.
Defined.

(** A composite of a foreign limiter that grants, a foreign limiter that
    grants and meanwhile empties the composite, and a redis limiter: the
    call still walks the three limiters it has copied, and returns the time
    of the third. *)
Lemma composite_Take_returns_last_grant_witness :
  Takes (compositeL 0)
    (composite_of [foreignL 0; foreignL 4; redisL ex_limiter] 100 [])
    (104, None)
    (mkState (mkScript 110 [] [])
       (mkHeap [mkComposite nilSlice]
          [[foreignL 0; foreignL 4; redisL ex_limiter]])
       [EvForeign 0; EvForeign 4; EvNow 104; ex_allow]).
Proof.
  eapply (@composite_Take_returns_last_grant Script script_Runtime 0%nat
            _ _ [foreignL 0; foreignL 4] (redisL ex_limiter)).
  - reflexivity.
  - reflexivity.
  - eapply grants_cons; [exists 1%nat; reflexivity|].
    eapply grants_cons; [exists 1%nat; reflexivity|].
    apply grants_nil.
  - exists 1%nat. reflexivity.
Defined.

(** A composite made of nothing. *)
Lemma composite_Take_empty_fails_open_witness :
  Limiter_Take 1 (compositeL 0) (composite_of [] 100 [])
  = (Returned (100, None),
     mkState (mkScript 101 [] []) (mkHeap [mkComposite nilSlice] [])
       [EvNow 100]) /\
  (forall take,
      compositeLimiter_Take take 0%nat (composite_of [] 100 [])
      = (Returned (100, None),
         mkState (mkScript 101 [] []) (mkHeap [mkComposite nilSlice] [])
           [EvNow 100])) /\
  trace (mkState (mkScript 101 [] []) (mkHeap [mkComposite nilSlice] [])
           [EvNow 100])
  = trace (composite_of [] 100 []) ++ [EvNow 100].
Proof.
  eapply (@composite_Take_empty_fails_open Script script_Runtime 0 0%nat).
  - reflexivity.
  - reflexivity.
  - reflexivity.
Defined.

(** A composite of a limiter that grants, a limiter that fails, and a nil
    limiter, on which a call would panic: the call returns the error of the
    second and never gets to the third. *)
Lemma composite_Take_aborts_on_first_error_witness :
  Takes (compositeL 0)
    (composite_of [foreignL 0; foreignL 1; nilLimiter] 100 [])
    (104, Some (errorOf "down"))
    (mkState (mkScript 105 [] [])
       (mkHeap [mkComposite (mkSlice 0 0 3 3)]
          [[foreignL 0; foreignL 1; nilLimiter]])
       [EvForeign 0; EvForeign 1; EvNow 104]) /\
  trace (mkState (mkScript 105 [] [])
           (mkHeap [mkComposite (mkSlice 0 0 3 3)]
              [[foreignL 0; foreignL 1; nilLimiter]])
           [EvForeign 0; EvForeign 1; EvNow 104])
  = trace (mkState (mkScript 104 [] [])
             (mkHeap [mkComposite (mkSlice 0 0 3 3)]
                [[foreignL 0; foreignL 1; nilLimiter]])
             [EvForeign 0; EvForeign 1])
    ++ [EvNow 104].
Proof.
  eapply (@composite_Take_aborts_on_first_error Script script_Runtime 0%nat
            _ _ [foreignL 0] [nilLimiter] (foreignL 1)).
  - reflexivity.
  - reflexivity.
  - eapply grants_cons; [exists 1%nat; reflexivity|]. apply grants_nil.
  - exists 1%nat. reflexivity.
  - reflexivity.
Defined.

(** Adding the nil limiter to a composite of one limiter. *)
Lemma AddLimiter_appends_one_witness :
  exists s' c',
    compositeLimiter_AddLimiter 0 nilLimiter (composite_of [foreignL 0] 100 [])
      = (Returned tt, s') /\
    composites (heap s') !! 0%nat = Some c' /\
    wf_slice (heap s') (limiters c') /\
    slice_elems (heap s') (limiters c')
      = slice_elems (heap (composite_of [foreignL 0] 100 []))
          (mkSlice 0 0 1 1) ++ [nilLimiter] /\
    length (slice_elems (heap s') (limiters c'))
      = S (length (slice_elems (heap (composite_of [foreignL 0] 100 []))
                     (mkSlice 0 0 1 1))) /\
    (forall (i : nat) (y : Limiter),
        slice_elems (heap (composite_of [foreignL 0] 100 []))
          (mkSlice 0 0 1 1) !! i = Some y ->
        slice_elems (heap s') (limiters c') !! i = Some y) /\
    last (slice_elems (heap s') (limiters c')) = Some nilLimiter.
Proof.
  apply (@AddLimiter_appends_one Script script_Runtime 0%nat
           (mkComposite (mkSlice 0 0 1 1)) nilLimiter
           (composite_of [foreignL 0] 100 [])).
  - reflexivity.
  - vm_compute. lia.
Defined.

(** * The further properties at work *)

Lemma New_defaults_to_one_second_witness :
  Period (mkLimit 5 5 time_Second) = time_Second /\
  key (mkRedisLimiter (NewLimiter 3%nat) "user:123"
         (mkLimit 5 5 time_Second) (cancelCtx 1)) = "user:123"%string /\
  limiter (mkRedisLimiter (NewLimiter 3%nat) "user:123"
             (mkLimit 5 5 time_Second) (cancelCtx 1)) = NewLimiter 3%nat.
Proof.
  apply (@New_defaults_to_one_second 3%nat "user:123" 5
           [WithContext (cancelCtx 1)]
           (mkRedisLimiter (NewLimiter 3%nat) "user:123"
              (mkLimit 5 5 time_Second) (cancelCtx 1))).
  - intros d [H|[]]. discriminate H.
  - reflexivity.
Defined.

Lemma New_last_Per_wins_witness :
  Period (limit (mkRedisLimiter (NewLimiter 3%nat) "user:123"
                   (mkLimit 5 5 60) Background)) = 60.
Proof.
  apply (@New_last_Per_wins 3%nat "user:123" 5 [Per 10; Per 20]
           [WithContext Background] 60).
  - intros d [H|[]]. discriminate H.
  - reflexivity.
Defined.

Lemma New_last_WithContext_wins_witness :
  ctx (mkRedisLimiter (NewLimiter 3%nat) "user:123"
         (mkLimit 5 5 60) (cancelCtx 2)) = cancelCtx 2.
Proof.
  apply (@New_last_WithContext_wins 3%nat "user:123" 5
           [WithContext (cancelCtx 1)] [Per 60] (cancelCtx 2)).
  - intros x [H|[]]. discriminate H.
  - reflexivity.
Defined.

Lemma Take_error_comes_from_store_witness :
  exists (s1 s2 : State Script) (res : option Result),
    Allow (limiter ex_limiter) (ctx ex_limiter) (key ex_limiter)
      (limit ex_limiter) s1
      = (Returned (res, Some (errorOf "connection refused")), s2) /\
    time_Now s2
      = (Returned 106,
         state_at 107 [] [] [EvNow 100; ex_allow; EvNow 106]).
Proof.
  apply (@Take_error_comes_from_store Script script_Runtime 1 ex_limiter
           (start 100 [(None, Some (errorOf "connection refused"))] [])).
  reflexivity.
Defined.

Lemma Take_background_grant_is_store_answer_witness :
  exists (s0 s1 : State Script) (r : Result),
    time_Now s0 = (Returned 100, s1) /\
    Allow (limiter two_per_second) (ctx two_per_second) (key two_per_second)
      (limit two_per_second) s1
      = (Returned (Some r, None),
         state_at 106 [] []
           [EvNow 100; EvAllow "two" (mkLimit 2 2 time_Second)]) /\
    (0 < Allowed r \/ RetryAfter r <= 0).
Proof.
  apply (@Take_background_grant_is_store_answer Script script_Runtime 1
           two_per_second (start 100 [(Some granted, None)] [])).
  - reflexivity.
  - reflexivity.
Defined.

Lemma Take_never_panics_witness :
  fst (redisLimiter_Take 7 two_per_second (window_start 0)) <> Panicked.
Proof.
  apply (@Take_never_panics Window window_Runtime 7 two_per_second).
  - intros e. cbn. unfold window_Allow.
    destruct (Z.of_nat _ <? _); discriminate.
  - discriminate.
Defined.

Lemma Take_blocks_while_denied_witness :
  fst (redisLimiter_Take 7 none_per_second (window_start 0)) = Blocked.
Proof.
  apply (@Take_blocks_while_denied Window window_Runtime 7 none_per_second).
  - intros e. cbn. unfold window_Allow. cbn [Period Rate].
    destruct (w_start e + time_Second <=? w_clock e) eqn:E;
      (destruct (Z.of_nat _ <? 0) eqn:E2; [apply Z.ltb_lt in E2; lia|]);
      eexists; (split; [reflexivity|]); cbn; unfold time_Second in *.
    + split; lia.
    + apply Z.leb_gt in E. split; lia.
  - reflexivity.
Defined.

Lemma Take_nil_context_panics_on_backoff_witness :
  redisLimiter_Take 1
    (mkRedisLimiter (NewLimiter 0%nat) "k" (mkLimit 1 1 time_Second) nilContext)
    (start 100 [(Some (denied 50), None)] [])
  = (Panicked,
     state_at 106 [] [] [EvNow 100; EvAllow "k" (mkLimit 1 1 time_Second)]).
Proof.
  eapply (@Take_nil_context_panics_on_backoff Script script_Runtime 0).
  - reflexivity.
  - reflexivity.
  - reflexivity.
  - vm_compute. discriminate.
  - reflexivity.
Defined.

Lemma Take_asks_once_per_turn_witness :
  heap (state_at 162 [] []
          [EvNow 100; ex_allow; EvRace 50 7; EvNow 156; ex_allow])
  = heap (start 100 [(Some (denied 50), None); (Some granted, None)]
            [TimerFired]) /\
  exists tr,
    trace (state_at 162 [] []
             [EvNow 100; ex_allow; EvRace 50 7; EvNow 156; ex_allow])
    = trace (start 100 [(Some (denied 50), None); (Some granted, None)]
               [TimerFired]) ++ tr /\
    Forall (asks_for ex_limiter) tr /\
    (count is_allow tr = S (count is_wait tr) \/
     (count is_allow tr = count is_wait tr /\
      snd (156, @None error) = None /\
      exists c, ctx ex_limiter = cancelCtx c)).
Proof.
  apply (@Take_asks_once_per_turn Script script_Runtime 2 ex_limiter).
  reflexivity.
Defined.

Lemma composite_Take_granted_inv_witness :
  exists front lastL s1,
    [foreignL 0; foreignL 4; redisL ex_limiter] = front ++ [lastL] /\
    grants front
      (composite_of [foreignL 0; foreignL 4; redisL ex_limiter] 100 []) s1 /\
    Takes lastL s1 (104, None)
      (mkState (mkScript 110 [] [])
         (mkHeap [mkComposite nilSlice]
            [[foreignL 0; foreignL 4; redisL ex_limiter]])
         [EvForeign 0; EvForeign 4; EvNow 104; ex_allow]).
Proof.
  eapply (@composite_Take_granted_inv Script script_Runtime 0%nat).
  - reflexivity.
  - reflexivity.
  - discriminate.
  - exists 2%nat. reflexivity.
Defined.

Lemma composite_Take_error_inv_witness :
  exists (front rest : list Limiter) (failing : Limiter)
         (s1 s2 : State Script) (t1 : time_Time),
    slice_elems
      (heap (composite_of [foreignL 0; foreignL 1; nilLimiter] 100 []))
      (mkSlice 0 0 3 3) = front ++ failing :: rest /\
    grants front (composite_of [foreignL 0; foreignL 1; nilLimiter] 100 []) s1 /\
    Takes failing s1 (t1, Some (errorOf "down")) s2 /\
    time_Now s2
      = (Returned 104,
         mkState (mkScript 105 [] [])
           (mkHeap [mkComposite (mkSlice 0 0 3 3)]
              [[foreignL 0; foreignL 1; nilLimiter]])
           [EvForeign 0; EvForeign 1; EvNow 104]).
Proof.
  apply (@composite_Take_error_inv Script script_Runtime 0%nat
           (mkComposite (mkSlice 0 0 3 3))).
  - reflexivity.
  - exists 2%nat. reflexivity.
Defined.

Lemma composite_Take_nil_constituent_panics_witness :
  exists n0, forall n, (n0 <= n)%nat ->
    Limiter_Take n (compositeL 0)
      (composite_of [foreignL 0; nilLimiter; foreignL 1] 100 [])
    = (Panicked,
       mkState (mkScript 102 [] [])
         (mkHeap [mkComposite (mkSlice 0 0 3 3)]
            [[foreignL 0; nilLimiter; foreignL 1]])
         [EvForeign 0]).
Proof.
  eapply (@composite_Take_nil_constituent_panics Script script_Runtime 0%nat
            _ _ [foreignL 0] [foreignL 1]).
  - reflexivity.
  - reflexivity.
  - eapply grants_cons; [exists 1%nat; reflexivity|]. apply grants_nil.
Defined.

Lemma composite_Take_on_itself_never_returns_witness :
  Limiter_Take 9 (compositeL 0) self_state = (Blocked, self_state).
Proof.
  eapply (@composite_Take_on_itself_never_returns Script script_Runtime 9
            0%nat _ _ []).
  - reflexivity.
  - reflexivity.
Defined.

Lemma Take_after_AddLimiter_sees_it_witness :
  exists s',
    compositeLimiter_AddLimiter 0 (foreignL 1)
      (composite_of [foreignL 0] 100 []) = (Returned tt, s') /\
    forall n,
      Limiter_Take (S n) (compositeL 0) s'
      = range_Take (Limiter_Take n)
          (slice_elems (heap (composite_of [foreignL 0] 100 []))
             (mkSlice 0 0 1 1) ++ [foreignL 1]) zeroTime s'.
Proof.
  apply (@Take_after_AddLimiter_sees_it Script script_Runtime 0%nat
           (mkComposite (mkSlice 0 0 1 1)) (foreignL 1)
           (composite_of [foreignL 0] 100 [])).
  - reflexivity.
  - vm_compute. lia.
Defined.

Lemma AddLimiter_leaves_others_alone_witness :
  exists s',
    compositeLimiter_AddLimiter 0 nilLimiter apart_state = (Returned tt, s') /\
    composites (heap s') !! 1%nat = Some (mkComposite (mkSlice 1 0 1 1)) /\
    slice_elems (heap s') (mkSlice 1 0 1 1)
      = slice_elems (heap apart_state) (mkSlice 1 0 1 1) /\
    env s' = env apart_state /\ trace s' = trace apart_state.
Proof.
  apply (@AddLimiter_leaves_others_alone Script script_Runtime 0%nat 1%nat
           (mkComposite (mkSlice 0 0 1 1)) (mkComposite (mkSlice 1 0 1 1))
           nilLimiter apart_state).
  - discriminate.
  - reflexivity.
  - reflexivity.
  - vm_compute. lia.
  - left. reflexivity.
Defined.

Lemma AddLimiter_on_shared_slice_overwrites_witness :
  exists (s1 s2 : State Script) (c1 : compositeLimiter),
    compositeLimiter_AddLimiter 0 (foreignL 1) shared_state
      = (Returned tt, s1) /\
    compositeLimiter_AddLimiter 1 (foreignL 4) s1 = (Returned tt, s2) /\
    composites (heap s2) !! 0%nat = Some c1 /\
    slice_elems (heap s2) (limiters c1)
      = slice_elems (heap shared_state) (mkSlice 0 0 1 3) ++ [foreignL 4].
Proof.
  apply (@AddLimiter_on_shared_slice_overwrites Script script_Runtime
           0%nat 1%nat (mkSlice 0 0 1 3) (foreignL 1) (foreignL 4)
           shared_state).
  - discriminate.
  - reflexivity.
  - reflexivity.
  - vm_compute. lia.
  - vm_compute. lia.
Defined.
